(** * Chord-symbol parsing and chord construction of [music.py]

    A shallow embedding of the chord functions of [src/music.py] and of the
    progression assembly that drives them, followed by the properties of the
    specification stated and settled against that embedding.

    Conventions of the embedding.
    - A Python [str] is a [string]; every character stands for a code point
      below 256, and [is_space] is Python's [str.isspace] on that range.
    - A Python [int] is a [Z]; [%] is [Z.modulo] (the divisor is positive
      wherever the source uses it).
    - [print] appends a structured line ([Diag]) to the output of the call;
      a function that prints or raises lives in the monad [M].
    - The music21 library, the [os] module and the clock are not part of
      the source: the calls the source makes to them are parameters of the
      development ([Note], [os_env]), which may return or raise, and every
      statement holds whatever they do unless it says what it asks of
      them. *)

From Stdlib Require Import String Ascii List ZArith Lia Bool Permutation.
From Stdlib Require Import DecimalString.
Import ListNotations.
Open Scope string_scope.
Open Scope list_scope.

(* ------------------------------------------------------------------ *)
(** ** Python string operations used by the source *)
(* ------------------------------------------------------------------ *)

Module PyStr.

(** [str.isspace] for one character (code points below 256). *)
Definition is_space (c : ascii) : bool :=
  let n := nat_of_ascii c in
  (Nat.leb 9 n && Nat.leb n 13) || (Nat.leb 28 n && Nat.leb n 32)
  || Nat.eqb n 133 || Nat.eqb n 160.

Fixpoint lstrip (s : string) : string :=
  match s with
  | EmptyString => EmptyString
  | String c r => if is_space c then lstrip r else s
  end.

Fixpoint rstrip (s : string) : string :=
  match s with
  | EmptyString => EmptyString
  | String c r =>
      match rstrip r with
      | EmptyString => if is_space c then EmptyString else String c EmptyString
      | r' => String c r'
      end
  end.

(** [s.strip()] *)
Definition strip (s : string) : string := rstrip (lstrip s).

(** [s.split(sep)] for a one-character separator: always at least one piece. *)
Fixpoint split (sep : ascii) (s : string) : list string :=
  match s with
  | EmptyString => [EmptyString]
  | String c r =>
      if Ascii.eqb c sep then EmptyString :: split sep r
      else match split sep r with
           | [] => [String c EmptyString]
           | w :: ws => String c w :: ws
           end
  end.

(** [sub in s] *)
Fixpoint contains (sub s : string) : bool :=
  prefix sub s ||
  match s with
  | EmptyString => false
  | String _ r => contains sub r
  end.

(** [s.endswith(suf)] *)
Fixpoint endswith (suf s : string) : bool :=
  String.eqb s suf ||
  match s with
  | EmptyString => false
  | String _ r => endswith suf r
  end.

(** [s[:-n]] for [n > 0] *)
Definition drop_last (n : nat) (s : string) : string :=
  substring 0 (String.length s - n) s.

(** [s.replace(old, "")] for a non-empty [old]: the occurrences are found
    from the left and do not overlap.  [skip] counts the characters of the
    occurrence in progress that are still to be dropped. *)
Fixpoint remove_from (skip : nat) (old s : string) : string :=
  match s with
  | EmptyString => EmptyString
  | String c r =>
      match skip with
      | S k => remove_from k old r
      | O => if prefix old s then remove_from (String.length old - 1) old r
             else String c (remove_from 0 old r)
      end
  end.

Definition remove_all (old s : string) : string := remove_from 0 old s.

(** number of occurrences of a character *)
Fixpoint count_char (c : ascii) (s : string) : nat :=
  match s with
  | EmptyString => 0
  | String d r => (if Ascii.eqb d c then 1 else 0) + count_char c r
  end.

End PyStr.

(** [x in l] for a list of strings *)
Definition mem (x : string) (l : list string) : bool :=
  existsb (String.eqb x) l.

(** A dict with string keys, written as the literal is; no key is repeated
    in the tables of the source. *)
Definition dict (V : Type) := list (string * V).

Fixpoint dict_get {V : Type} (d : dict V) (k : string) : option V :=
  match d with
  | [] => None
  | (k', v) :: d' => if String.eqb k k' then Some v else dict_get d' k
  end.

(** [k in d] *)
Definition dict_mem {V : Type} (d : dict V) (k : string) : bool :=
  match dict_get d k with Some _ => true | None => false end.

(* ------------------------------------------------------------------ *)
(** ** The tables *)
(* ------------------------------------------------------------------ *)

Definition notes : list string :=
  ["C"; "C#/Db"; "D"; "D#/Eb"; "E"; "F"; "F#/Gb"; "G"; "G#/Ab"; "A"; "A#/Bb"; "B"].

Definition accidental_map : dict string :=
  [("C#", "Db"); ("Db", "C#");
   ("D#", "Eb"); ("Eb", "D#");
   ("F#", "Gb"); ("Gb", "F#");
   ("G#", "Ab"); ("Ab", "G#");
   ("A#", "Bb"); ("Bb", "A#")].

Definition chord : dict (list string) :=
  [("A",  ["A"; "C#"; "E"]);
   ("A#", ["A#"; "D"; "F"]);
   ("Bb", ["Bb"; "D"; "F"]);
   ("B",  ["B"; "D#"; "F#"]);
   ("C",  ["C"; "E"; "G"]);
   ("C#", ["C#"; "F"; "G#"]);
   ("Db", ["Db"; "F"; "Ab"]);
   ("D",  ["D"; "F#"; "A"]);
   ("D#", ["D#"; "G"; "A#"]);
   ("Eb", ["Eb"; "G"; "Bb"]);
   ("E",  ["E"; "G#"; "B"]);
   ("F",  ["F"; "A"; "C"]);
   ("F#", ["F#"; "A#"; "C#"]);
   ("Gb", ["Gb"; "Bb"; "Db"]);
   ("G",  ["G"; "B"; "D"]);
   ("G#", ["G#"; "C"; "D#"]);
   ("Ab", ["Ab"; "C"; "Eb"])].

Definition enharmonic : dict string :=
  [("Bb", "A#"); ("A#", "Bb");
   ("Db", "C#"); ("C#", "Db");
   ("Eb", "D#"); ("D#", "Eb");
   ("E#", "F");  ("F", "E#");
   ("Gb", "F#"); ("F#", "Gb");
   ("Ab", "G#"); ("G#", "Ab")].

(* ------------------------------------------------------------------ *)
(** ** Exceptions, printed lines and the monad of the chord functions *)
(* ------------------------------------------------------------------ *)

(** [PermissionError] is what writing to a file in use raises;
    [OtherException] stands for the exceptions of the libraries the source
    calls, by class name and message. *)
Inductive exn : Type :=
| ValueError (msg : string)
| IndexError
| KeyError (key : string)
| PermissionError
| OtherException (class message : string).

(** One constructor for each [print] of the source, carrying the values the
    line is formatted from.  The traceback that two handlers also write goes
    to the error stream and is left out. *)
Inductive Diag : Type :=
| ErrorLowering (note : string) (e : exn)
| ErrorRaising (note : string) (e : exn)
| UnknownSeventh (chord_type : string)
| ProblemSeventh (e : exn)
| BassNotFound (bass_note : string) (chord_notes : list string)
| Parsed (chord_string root : string) (is_minor is_dim : bool)
         (seventh bass : option string)
| RootNotFound (root : string)
| UsingInstead (root : string)
| CantFind (chord_string : string)
| BaseChord (chord_string : string) (chord_notes : list string)
| AfterDiminished (chord_notes : list string)
| AfterMinor (chord_notes : list string)
| AfterSeventh (seventh : string) (chord_notes : list string)
| AfterInversion (bass : string) (chord_notes : list string)
| FinalChord (chord_notes : list string)
| ProblemWithChord (chord_string : string) (e : exn).

(** [Diverge] is the outcome of a loop that never ends; no handler catches
    it. *)
Inductive res (A : Type) : Type :=
| Ok (a : A)
| Raise (e : exn)
| Diverge.
Arguments Ok {A} a.
Arguments Raise {A} e.
Arguments Diverge {A}.

(** A computation: its result, the exception it raises or its divergence,
    and what it printed. *)
Definition M (A : Type) : Type := res A * list Diag.

Definition ret {A : Type} (a : A) : M A := (Ok a, []).
Definition throw {A : Type} (e : exn) : M A := (Raise e, []).
Definition print (d : Diag) : M unit := (Ok tt, [d]).

Definition bind {A B : Type} (m : M A) (f : A -> M B) : M B :=
  match m with
  | (Ok a, out) => let (r, out') := f a in (r, out ++ out')
  | (Raise e, out) => (Raise e, out)
  | (Diverge, out) => (Diverge, out)
  end.

(** [try: m except Exception as e: handler e] *)
Definition try_except {A : Type} (m : M A) (handler : exn -> M A) : M A :=
  match m with
  | (Ok a, out) => (Ok a, out)
  | (Raise e, out) => let (r, out') := handler e in (r, out ++ out')
  | (Diverge, out) => (Diverge, out)
  end.

Declare Scope py_scope.
Delimit Scope py_scope with py.
Notation "x <- m ;; k" := (bind m (fun x => k))
  (at level 61, m at next level, right associativity) : py_scope.
Notation "m ;;; k" := (bind m (fun _ => k))
  (at level 61, right associativity) : py_scope.
Open Scope py_scope.

(** a call that prints nothing: its outcome alone *)
Definition quiet {A : Type} (r : res A) : M A := (r, []).

(** [try: m except PermissionError: handler]; any other exception goes
    on. *)
Definition try_except_PermissionError {A : Type} (m : M A) (handler : M A)
  : M A :=
  match m with
  | (Raise PermissionError, out) => let (r, out') := handler in (r, out ++ out')
  | _ => m
  end.

(** [str(n)] for an [int] *)
Definition str_of_int (n : Z) : string := NilZero.string_of_int (Z.to_int n).

Definition result {A : Type} (m : M A) : res A := fst m.
Definition output {A : Type} (m : M A) : list Diag := snd m.

(** [l[i]] with Python's negative indices; out of range raises. *)
Definition py_index {A : Type} (l : list A) (i : Z) : M A :=
  let n := Z.of_nat (length l) in
  let j := if (i <? 0)%Z then (i + n)%Z else i in
  if (j <? 0)%Z then throw IndexError
  else match nth_error l (Z.to_nat j) with
       | Some a => ret a
       | None => throw IndexError
       end.

(** [l[i] = v] on a copy of [l] *)
Fixpoint set_nth {A : Type} (l : list A) (i : nat) (v : A) : option (list A) :=
  match l, i with
  | [], _ => None
  | _ :: r, O => Some (v :: r)
  | a :: r, S k => option_map (cons a) (set_nth r k v)
  end.

Definition py_store {A : Type} (l : list A) (i : Z) (v : A) : M (list A) :=
  let n := Z.of_nat (length l) in
  let j := if (i <? 0)%Z then (i + n)%Z else i in
  if (j <? 0)%Z then throw IndexError
  else match set_nth l (Z.to_nat j) v with
       | Some l' => ret l'
       | None => throw IndexError
       end.

(* ------------------------------------------------------------------ *)
(** ** Chord functions *)
(* ------------------------------------------------------------------ *)

(** the [for i, note_options in enumerate(notes)] loop of [get_note_index] *)
Fixpoint find_note (note : string) (options : list string) (i : Z) : option Z :=
  match options with
  | [] => None
  | note_options :: rest =>
      if mem note (PyStr.split "/" note_options) then Some i
      else find_note note rest (i + 1)%Z
  end.

Definition get_note_index (note : string) : M Z :=
  match find_note note notes 0%Z with
  | Some i => ret i
  | None => throw (ValueError ("Note " ++ note ++ " not found in notes list"))
  end.

Definition lower_note_by_semitone (note : string) : M string :=
  try_except
    (idx <- get_note_index note ;;
     let new_idx := ((idx - 1) mod Z.of_nat (length notes))%Z in
     names <- py_index notes new_idx ;;
     py_index (PyStr.split "/" names) 0%Z)
    (fun e => print (ErrorLowering note e) ;;; ret note).

Definition raise_note_by_semitone (note : string) : M string :=
  try_except
    (idx <- get_note_index note ;;
     let new_idx := ((idx + 1) mod Z.of_nat (length notes))%Z in
     names <- py_index notes new_idx ;;
     py_index (PyStr.split "/" names) 0%Z)
    (fun e => print (ErrorRaising note e) ;;; ret note).

Definition make_minor_chord (chord_notes : list string) : M (list string) :=
  let minor := chord_notes in
  third <- py_index minor 1%Z ;;
  lowered <- lower_note_by_semitone third ;;
  py_store minor 1%Z lowered.

Definition make_diminished_chord (chord_notes : list string) : M (list string) :=
  let dim := chord_notes in
  third <- py_index dim 1%Z ;;
  lowered <- lower_note_by_semitone third ;;
  dim <- py_store dim 1%Z lowered ;;
  fifth <- py_index dim 2%Z ;;
  lowered <- lower_note_by_semitone fifth ;;
  py_store dim 2%Z lowered.

Definition seventh_intervals : dict nat :=
  [("maj7", 11); ("7", 10); ("m7", 10); ("dim7", 9); ("aug7", 10)].

(** the [for _ in range(interval)] loop of [make_seventh_chord] *)
Fixpoint walk_up (interval : nat) (current_note : string) : M string :=
  match interval with
  | O => ret current_note
  | S k => next <- raise_note_by_semitone current_note ;; walk_up k next
  end.

Definition make_seventh_chord (chord_notes : list string) (chord_type : string)
  : M (list string) :=
  try_except
    (let result := chord_notes in
     root <- py_index chord_notes 0%Z ;;
     match dict_get seventh_intervals chord_type with
     | None | Some O =>
         print (UnknownSeventh chord_type) ;;; ret chord_notes
     | Some interval =>
         current_note <- walk_up interval root ;;
         let current_note :=
           if String.eqb chord_type "dim7"
              && negb (PyStr.contains "b" current_note)
              && PyStr.contains "#" current_note
           then match dict_get accidental_map current_note with
                | Some flat => flat
                | None => current_note
                end
           else current_note in
         ret (result ++ [current_note])
     end)
    (fun e => print (ProblemSeventh e) ;;; ret chord_notes).

(** The loop [while result[0] != bass_note: result.append(result.pop(0))].
    [count] is the number of times the body has run; [fuel] bounds the number
    of further runs, and the loop is reported as diverging when it is used
    up (see [rotate_until_more_fuel] and [rotate_until_absent]: this happens
    exactly when the loop of the source does not end). *)
Fixpoint rotate_until (fuel : nat) (result : list string) (bass_note : string)
  (count : nat) : res (list string * nat) :=
  match result with
  | [] => Raise IndexError
  | first :: rest =>
      if negb (String.eqb first bass_note) then
        match fuel with
        | O => Diverge
        | S fuel' => rotate_until fuel' (rest ++ [first]) bass_note (S count)
        end
      else Ok (result, count)
  end.

(** [inversion_by_bass_note], returning beside the chord the number of times
    the body of its loop ran, with the fuel of the loop as a parameter.
    [bass_note] is a string here: [None], the other value the first test
    rejects, is dealt with by the caller's own [if bass:]. *)
Definition inversion_trace_fuel (fuel : nat) (chord_notes : list string)
  (bass_note : string) : M (list string * nat) :=
  if String.eqb bass_note "" then ret (chord_notes, 0)
  else
    let rotate (bass_note : string) : M (list string * nat) :=
      let result := chord_notes in
      (rotate_until fuel result bass_note 0, []) in
    match dict_get enharmonic bass_note with
    | Some other =>
        if mem other chord_notes then rotate other
        else if negb (mem bass_note chord_notes) then
          print (BassNotFound bass_note chord_notes) ;;; ret (chord_notes, 0)
        else rotate bass_note
    | None =>
        if negb (mem bass_note chord_notes) then
          print (BassNotFound bass_note chord_notes) ;;; ret (chord_notes, 0)
        else rotate bass_note
    end.

(** The loop is given as many runs as the chord has notes: it needs fewer
    whenever it ends ([rotate_until_more_fuel]). *)
Definition inversion_trace (chord_notes : list string) (bass_note : string)
  : M (list string * nat) :=
  inversion_trace_fuel (length chord_notes) chord_notes bass_note.

Definition inversion_by_bass_note (chord_notes : list string) (bass_note : string)
  : M (list string) :=
  r <- inversion_trace chord_notes bass_note ;; ret (fst r).

(* ------------------------------------------------------------------ *)
(** ** Chord string parsing *)
(* ------------------------------------------------------------------ *)

(** The tuple [parse_chord_string] returns. *)
Record Descriptor : Type := mkDescriptor {
  root : string;
  is_minor : bool;
  is_dim : bool;
  seventh : option string;
  bass : option string
}.

(** truth value of a [str] or [None] *)
Definition truthy (s : option string) : bool :=
  match s with
  | Some s => negb (String.eqb s "")
  | None => false
  end.

Definition parse_chord_string (chord_string : string) : M Descriptor :=
  split_result <-
    (if PyStr.contains "/" chord_string then
       match PyStr.split "/" chord_string with
       | [chord_part; bass] => ret (PyStr.strip chord_part, Some (PyStr.strip bass))
       | [] | [_] => throw (ValueError "not enough values to unpack (expected 2, got 1)")
       | _ => throw (ValueError "too many values to unpack (expected 2)")
       end
     else ret (chord_string, None)) ;;
  let '(chord_string, bass) := split_result in
  let '(root, is_minor, is_dim, seventh) :=
    if PyStr.contains "dim7" chord_string then
      (PyStr.remove_all "dim7" chord_string, false, true, Some "dim7")
    else if PyStr.contains "dim" chord_string then
      (PyStr.remove_all "dim" chord_string, false, true, None)
    else if PyStr.contains "m" chord_string
            && negb (PyStr.endswith "maj7" chord_string) then
      if PyStr.endswith "m7" chord_string then
        (PyStr.drop_last 2 chord_string, true, false, Some "m7")
      else if PyStr.endswith "m" chord_string then
        (PyStr.drop_last 1 chord_string, true, false, None)
      else (chord_string, true, false, None)
    else if PyStr.endswith "maj7" chord_string then
      (PyStr.drop_last 4 chord_string, false, false, Some "maj7")
    else if PyStr.endswith "7" chord_string then
      (PyStr.drop_last 1 chord_string, false, false, Some "7")
    else (chord_string, false, false, None) in
  let root := PyStr.strip root in
  let bass :=
    match bass with
    | Some b =>
        match dict_get enharmonic b with
        | Some other =>
            if truthy bass && PyStr.contains "#" b && PyStr.contains "b" other
            then Some other else bass
        | None => bass
        end
    | None => None
    end in
  print (Parsed chord_string root is_minor is_dim seventh bass) ;;;
  ret (mkDescriptor root is_minor is_dim seventh bass).

Definition get_chord_from_string (chord_string : string) : M (option (list string)) :=
  try_except
    (d <- parse_chord_string chord_string ;;
     let '(mkDescriptor root is_minor is_dim seventh bass) := d in
     found <-
       (if negb (dict_mem chord root) then
          print (RootNotFound root) ;;;
          match dict_get enharmonic root with
          | Some other =>
              if dict_mem chord other then
                print (UsingInstead other) ;;; ret (Some other)
              else print (CantFind chord_string) ;;; ret None
          | None => print (CantFind chord_string) ;;; ret None
          end
        else ret (Some root)) ;;
     match found with
     | None => ret None
     | Some root =>
         notes <- match dict_get chord root with
                  | Some triad => ret triad
                  | None => throw (KeyError root)
                  end ;;
         print (BaseChord chord_string notes) ;;;
         notes <-
           (if is_dim then
              notes <- make_diminished_chord notes ;;
              print (AfterDiminished notes) ;;; ret notes
            else if is_minor then
              notes <- make_minor_chord notes ;;
              print (AfterMinor notes) ;;; ret notes
            else ret notes) ;;
         notes <-
           (match seventh with
            | Some kind =>
                if truthy seventh then
                  notes <- make_seventh_chord notes kind ;;
                  print (AfterSeventh kind notes) ;;; ret notes
                else ret notes
            | None => ret notes
            end) ;;
         notes <-
           (match bass with
            | Some b =>
                if truthy bass then
                  notes <- inversion_by_bass_note notes b ;;
                  print (AfterInversion b notes) ;;; ret notes
                else ret notes
            | None => ret notes
            end) ;;
         print (FinalChord notes) ;;;
         ret (Some notes)
     end)
    (fun e => print (ProblemWithChord chord_string e) ;;; ret None).

(* ------------------------------------------------------------------ *)
(** ** MIDI creation *)
(* ------------------------------------------------------------------ *)

Section Rendering.

(** The type of durations, which are only stored in the notes, and the type
    of what the library makes of the name of a pitch. *)
Context {D Pitch : Type}.

(** [music21.note.Note(name)]: the pitch the library reads in a name, the
    letter, the accidental and the octave in one text, or the exception it
    raises on a name it cannot read. *)
Variable Note : string -> res Pitch.

(** a note of the library with its [quarterLength] *)
Record m21_note : Type := mkNote {
  note_pitch : Pitch;
  quarterLength : D
}.

(** An element of a stream: a [music21.chord.Chord] over its notes, or a
    single note. *)
Inductive element : Type :=
| ChordOf (chord_notes : list m21_note)
| NoteOf (n : m21_note).

Definition m21_stream : Type := list element.

(** the [for note in chord_notes] loop of [create_music21_chord] *)
Fixpoint append_m21_notes (chord_notes : list string) (octave : Z)
  (duration : D) (m21_notes : list m21_note) : M (list m21_note) :=
  match chord_notes with
  | [] => ret m21_notes
  | note :: rest =>
      let note :=
        match dict_get accidental_map note with
        | Some other => if PyStr.contains "b" other then other else note
        | None => note
        end in
      pitch <- quiet (Note (note ++ str_of_int octave)) ;;
      let m21_note := mkNote pitch duration in
      append_m21_notes rest octave duration (m21_notes ++ [m21_note])
  end.

Definition create_music21_chord (chord_notes : option (list string))
  (octave : Z) (duration : D) : M (option element) :=
  match chord_notes with
  | None | Some [] => ret None
  | Some chord_notes =>
      m21_notes <- append_m21_notes chord_notes octave duration [] ;;
      ret (Some (ChordOf m21_notes))
  end.

Definition create_music21_note (note_name : string) (octave : Z) (duration : D)
  : M element :=
  let note_name :=
    if PyStr.contains "#" note_name then
      match dict_get accidental_map note_name with
      | Some other => other
      | None => note_name
      end
    else note_name in
  pitch <- quiet (Note (note_name ++ str_of_int octave)) ;;
  ret (NoteOf (mkNote pitch duration)).

(** A progression or bass line as the caller gives it: a text to be split on
    commas, or a list of names. *)
Inductive names_arg : Type :=
| Text (s : string)
| Names (l : list string).

Definition names_of (a : names_arg) : list string :=
  match a with
  | Text s => map PyStr.strip (PyStr.split "," s)
  | Names l => l
  end.

(** the [for chord_name in progression] loop of [create_chord_progression] *)
Fixpoint append_chords (progression : list string) (octave : Z) (duration : D)
  (stream : m21_stream) : M m21_stream :=
  match progression with
  | [] => ret stream
  | chord_name :: rest =>
      chord_notes <- get_chord_from_string chord_name ;;
      stream <-
        match chord_notes with
        | None | Some [] => ret stream
        | Some _ =>
            chord_obj <- create_music21_chord chord_notes octave duration ;;
            (* a chord built from a non-empty list is a true object *)
            match chord_obj with
            | Some chord_obj => ret (stream ++ [chord_obj])
            | None => ret stream
            end
        end ;;
      append_chords rest octave duration stream
  end.

Definition create_chord_progression (progression : names_arg) (octave : Z)
  (duration : D) : M m21_stream :=
  append_chords (names_of progression) octave duration [].

(** the [for note_name in bass_notes] loop of [create_bass_line] *)
Fixpoint append_notes (bass_notes : list string) (octave : Z) (duration : D)
  (stream : m21_stream) : M m21_stream :=
  match bass_notes with
  | [] => ret stream
  | note_name :: rest =>
      note <- create_music21_note note_name octave duration ;;
      append_notes rest octave duration (stream ++ [note])
  end.

Definition create_bass_line (bass_progression : names_arg) (octave : Z)
  (duration : D) : M m21_stream :=
  append_notes (names_of bass_progression) octave duration [].

(* ------------------------------------------------------------------ *)
(** ** Export *)
(* ------------------------------------------------------------------ *)

Inductive instrument : Type := Piano | AcousticBass.

Record part : Type := mkPart {
  part_instrument : instrument;
  part_elements : m21_stream
}.

(** What is written to the file: the stream of the chords, or the score of
    the chord part and the bass part. *)
Inductive written : Type :=
| Chords (chords : m21_stream)
| Score (chord_part bass_part : part).

(** The calls to the [os] module, to the clock and to the [write] method of
    the library, as the machine answers them. *)
Record os_env : Type := mkOs {
  module_file : string;                          (* [__file__] *)
  os_path_dirname : string -> string;
  os_path_basename : string -> string;
  os_path_join : string -> string -> string;
  os_path_splitext : string -> string * string;
  os_path_sep : string;
  os_makedirs : string -> res unit;              (* with [exist_ok=True] *)
  now_timestamp : string;    (* [datetime.now().strftime("%Y%m%d_%H%M%S")] *)
  write_midi : written -> string -> res unit     (* [.write('midi', fp=...)] *)
}.

Variable os : os_env.

Definition get_output_path (filename : string) : M string :=
  let parent_dir := os_path_dirname os (os_path_dirname os (module_file os)) in
  let output_dir := os_path_join os parent_dir "output" in
  quiet (os_makedirs os output_dir) ;;;
  if negb (PyStr.contains (os_path_sep os) filename) then
    ret (os_path_join os output_dir filename)
  else ret filename.

Definition get_unique_filename (filename : string) : string :=
  let timestamp := now_timestamp os in
  let (base, ext) := os_path_splitext os (os_path_basename os filename) in
  base ++ "_" ++ timestamp ++ ext.

(** What [export_to_midi] tells its caller: that it saved to the path, that
    the file was in use and it saved to another path, or that the lengths
    differ.  What was written is kept beside the path. *)
Inductive export_result : Type :=
| Saved (what : written) (filepath : string)
| SavedInstead (what : written) (new_path : string)
| LengthWarning (chords bass : nat).

(** truth value of an optional progression argument *)
Definition given (a : option names_arg) : bool :=
  match a with
  | None | Some (Text "") | Some (Names []) => false
  | Some _ => true
  end.

(** The [try] that ends both branches of [export_to_midi]: write, and when
    the file is in use write under a name of its own. *)
Definition write_or_rename (what : written) (filepath : string)
  : M export_result :=
  try_except_PermissionError
    (quiet (write_midi os what filepath) ;;;
     ret (Saved what filepath))
    (let new_path :=
       os_path_join os (os_path_dirname os filepath)
                    (get_unique_filename filepath) in
     quiet (write_midi os what new_path) ;;;
     ret (SavedInstead what new_path)).

Definition export_to_midi (chord_progression : names_arg) (filename : string)
  (bass_progression : option names_arg) (chord_octave bass_octave : Z)
  (duration : D) : M export_result :=
  filepath <- get_output_path filename ;;
  match bass_progression with
  | Some bass_line =>
      if given bass_progression then
        chord_stream <- create_chord_progression chord_progression chord_octave duration ;;
        bass_stream <- create_bass_line bass_line bass_octave duration ;;
        if negb (Nat.eqb (length chord_stream) (length bass_stream)) then
          ret (LengthWarning (length chord_stream) (length bass_stream))
        else
          let chord_part := mkPart Piano chord_stream in
          let bass_part := mkPart AcousticBass bass_stream in
          write_or_rename (Score chord_part bass_part) filepath
      else
        stream <- create_chord_progression chord_progression chord_octave duration ;;
        write_or_rename (Chords stream) filepath
  | None =>
      stream <- create_chord_progression chord_progression chord_octave duration ;;
      write_or_rename (Chords stream) filepath
  end.

(** The chord/bass pairs of what was written, by position. *)
Definition pairs_of (what : written) : list (element * option element) :=
  match what with
  | Chords chords => map (fun c => (c, None)) chords
  | Score chord_part bass_part =>
      combine (part_elements chord_part) (map Some (part_elements bass_part))
  end.

Definition pairs (r : export_result) : list (element * option element) :=
  match r with
  | Saved what _ | SavedInstead what _ => pairs_of what
  | LengthWarning _ _ => []
  end.

Definition is_warning (r : export_result) : bool :=
  match r with
  | LengthWarning _ _ => true
  | _ => false
  end.

(** whether a call returned the length warning; [None] when it did not
    return *)
Definition is_warning_result (r : res export_result) : option bool :=
  match r with
  | Ok r => Some (is_warning r)
  | _ => None
  end.

End Rendering.

Arguments m21_note : clear implicits.
Arguments element : clear implicits.
Arguments m21_stream : clear implicits.
Arguments part : clear implicits.
Arguments written : clear implicits.
Arguments os_env : clear implicits.
Arguments export_result : clear implicits.

(* ------------------------------------------------------------------ *)
(** ** Notions used to state the properties *)
(* ------------------------------------------------------------------ *)

(** A list rotated to the left by [k] places. *)
Definition rotate_left (k : nat) (l : list string) : list string :=
  skipn k l ++ firstn k l.

(** A computation that comes to an end, with a value or an exception. *)
Definition halts {A : Type} (m : M A) : Prop := result m <> Diverge.

(** A text builds a chord when [get_chord_from_string] returns a non-empty
    list for it. *)
Definition builds (token : string) : bool :=
  match result (get_chord_from_string token) with
  | Ok (Some (_ :: _)) => true
  | _ => false
  end.

(** [sep.join(pieces)] *)
Fixpoint join (sep : ascii) (pieces : list string) : string :=
  match pieces with
  | [] => EmptyString
  | [piece] => piece
  | piece :: rest => piece ++ String sep (join sep rest)
  end.

Section Entries.

Context {D Pitch : Type}.
Variable Note : string -> res Pitch.
Variables (octave : Z) (duration : D).

(** What one text adds to the stream: the chord built for it, nothing when
    no chord is built, or the exception of the library on one of its
    notes. *)
Definition chord_entry (token : string) : res (list (element D Pitch)) :=
  match result (get_chord_from_string token) with
  | Ok (Some (first :: others)) =>
      match result (create_music21_chord Note (Some (first :: others))
                                         octave duration) with
      | Ok (Some chord_obj) => Ok [chord_obj]
      | Ok None => Ok []
      | Raise e => Raise e
      | Diverge => Diverge
      end
  | _ => Ok []
  end.

(** The entries of the texts one after the other, up to the first that
    raises. *)
Fixpoint entries (tokens : list string) : res (list (element D Pitch)) :=
  match tokens with
  | [] => Ok []
  | token :: rest =>
      match chord_entry token with
      | Ok here =>
          match entries rest with
          | Ok after => Ok (here ++ after)
          | Raise e => Raise e
          | Diverge => Diverge
          end
      | Raise e => Raise e
      | Diverge => Diverge
      end
  end.

(** The library reads the texts as the pitches, one for one. *)
Definition reads (texts : list string) (pitches : list Pitch) : Prop :=
  Forall2 (fun text pitch => Note text = Ok pitch) texts pitches.

(** An element made of the pitches the library reads in the texts. *)
Definition reads_as (texts : list string) (e : element D Pitch) : Prop :=
  match e with
  | ChordOf chord_notes =>
      reads texts (map note_pitch chord_notes) /\
      Forall (fun n => quarterLength n = duration) chord_notes
  | NoteOf n =>
      reads texts [note_pitch n] /\ quarterLength n = duration
  end.

End Entries.

(** The text handed to the library for a note of a chord: the flat for a
    sharp that has one, then the octave. *)
Definition chord_note_text (octave : Z) (note : string) : string :=
  (match dict_get accidental_map note with
   | Some other => if PyStr.contains "b" other then other else note
   | None => note
   end ++ str_of_int octave)%string.

(** The text handed to the library for a note of the bass line. *)
Definition bass_note_text (octave : Z) (note_name : string) : string :=
  ((if PyStr.contains "#" note_name then
      match dict_get accidental_map note_name with
      | Some other => other
      | None => note_name
      end
    else note_name) ++ str_of_int octave)%string.

(** The chord built for a text written [chord/bass] starts on the pitch
    class of [bass]; nothing is asked of a text without a slash. *)
Definition starts_on_requested_bass (token : string) (built : list string)
  : Prop :=
  match PyStr.split "/" token with
  | [_; requested] =>
      exists i first others,
        built = first :: others /\
        result (get_note_index first) = Ok i /\
        result (get_note_index (PyStr.strip requested)) = Ok i
  | _ => True
  end.

(** A library and a machine to run the examples on: every name is read, as
    itself; paths are joined with a slash, the output directory can be made
    and every file written. *)
Definition reads_every_name (name : string) : res string := Ok name.

Definition sample_dirname (path : string) : string :=
  join "/" (removelast (PyStr.split "/" path)).

Definition sample_basename (path : string) : string :=
  last (PyStr.split "/" path) EmptyString.

Definition sample_splitext (name : string) : string * string :=
  match PyStr.split "." name with
  | [] | [_] => (name, EmptyString)
  | pieces => (join "." (removelast pieces), String "." (last pieces EmptyString))
  end.

Definition sample_os (D : Type) : os_env D string :=
  mkOs "/music/processing/music.py" sample_dirname sample_basename
       (fun a b => (a ++ "/" ++ b)%string) sample_splitext "/"
       (fun _ => Ok tt) "20240101_120000" (fun _ _ => Ok tt).

(** The same machine with the file [/music/output/out.mid] in use. *)
Definition busy_os (D : Type) : os_env D string :=
  mkOs "/music/processing/music.py" sample_dirname sample_basename
       (fun a b => (a ++ "/" ++ b)%string) sample_splitext "/"
       (fun _ => Ok tt) "20240101_120000"
       (fun _ path => if String.eqb path "/music/output/out.mid"
                      then Raise PermissionError else Ok tt).

(** Every spelling the chromatic table knows, in the order of the table. *)
Definition spellings : list string := flat_map (PyStr.split "/") notes.

(** The five sharps that [accidental_map] pairs with a flat. *)
Definition sharps : list string := ["C#"; "D#"; "F#"; "G#"; "A#"].

(** The seven kinds of chord the parser tells apart, as the suffix written
    after the root and the semitones of the notes above the root. *)
Definition chord_kinds : list (string * list Z) :=
  [("", [0; 4; 7]); ("m", [0; 3; 7]); ("dim", [0; 3; 6]);
   ("7", [0; 4; 7; 10]); ("maj7", [0; 4; 7; 11]);
   ("m7", [0; 3; 7; 10]); ("dim7", [0; 3; 6; 9])]%Z.

(** a text that does not begin with white space *)
Definition starts_clean (s : string) : Prop :=
  match s with
  | EmptyString => True
  | String c _ => PyStr.is_space c = false
  end.

(* ================================================================== *)
(** * Properties *)
(* ================================================================== *)

(** ** Membership and table lookups *)

Lemma mem_In (x : string) (l : list string) : mem x l = true <-> In x l.
Proof.
  unfold mem. rewrite existsb_exists. split.
  - intros [y [Hin Heq]]. apply String.eqb_eq in Heq. now subst.
  - intros Hin. exists x. split; [assumption | apply String.eqb_refl].
Qed.

Lemma mem_not_In (x : string) (l : list string) : mem x l = false <-> ~ In x l.
Proof.
  rewrite <- mem_In. destruct (mem x l); split; intros; congruence.
Qed.

(** The first occurrence of a member splits the list. *)
Lemma mem_first_split (b : string) (l : list string) :
  mem b l = true ->
  exists pre post,
    l = pre ++ b :: post /\ Forall (fun y => String.eqb y b = false) pre.
Proof.
  induction l as [|a l IH]; simpl; [discriminate|].
  destruct (String.eqb b a) eqn:E.
  - intros _. apply String.eqb_eq in E. subst a.
    exists [], l. split; [reflexivity | constructor].
  - simpl. intros H. destruct (IH H) as (pre & post & -> & Hpre).
    exists (a :: pre), post. split; [reflexivity|].
    constructor; [now rewrite String.eqb_sym | assumption].
Qed.

(** ** The rotation loop *)

(** With the bass note first met after [pre], the loop runs [length pre]
    times and moves [pre] behind the rest. *)
Lemma rotate_until_found (bass : string) (pre : list string) :
  Forall (fun y => String.eqb y bass = false) pre ->
  forall post fuel count,
    length pre <= fuel ->
    rotate_until fuel (pre ++ bass :: post) bass count
    = Ok (bass :: post ++ pre, count + length pre).
Proof.
  induction 1 as [|a pre Ha Hpre IH]; intros post fuel count Hfuel.
  - destruct fuel; simpl; rewrite String.eqb_refl; simpl;
      now rewrite app_nil_r, Nat.add_0_r.
  - simpl in Hfuel. destruct fuel as [|fuel]; [lia|].
    simpl. rewrite Ha. simpl.
    rewrite <- app_assoc. simpl.
    rewrite (IH (post ++ [a]) fuel (S count)) by lia.
    rewrite <- app_assoc. simpl. do 2 f_equal. lia.
Qed.

(** Fuel beyond the length of the list changes nothing when the bass note is
    in the list. *)
Lemma rotate_until_more_fuel (l : list string) (bass : string) (fuel count : nat) :
  mem bass l = true -> length l - 1 <= fuel ->
  rotate_until fuel l bass count = rotate_until (length l) l bass count.
Proof.
  intros Hmem Hfuel.
  destruct (mem_first_split _ _ Hmem) as (pre & post & -> & Hpre).
  rewrite length_app in *. simpl in *.
  rewrite !(rotate_until_found bass pre Hpre) by lia. reflexivity.
Qed.

(** Without the bass note in it the list is rotated for ever. *)
Lemma rotate_until_absent (bass : string) (fuel : nat) :
  forall l count, l <> [] -> mem bass l = false ->
    rotate_until fuel l bass count = Diverge.
Proof.
  induction fuel as [|fuel IH]; intros [|a l] count Hne Hmem;
    try congruence; simpl in *;
    apply orb_false_iff in Hmem as [Ha Hl];
    rewrite String.eqb_sym, Ha; simpl; [reflexivity|].
  apply IH; [now destruct l|].
  unfold mem. rewrite existsb_app. simpl.
  unfold mem in Hl. now rewrite Hl, Ha.
Qed.


Lemma rotate_left_Permutation (k : nat) (l : list string) :
  Permutation l (rotate_left k l).
Proof.
  unfold rotate_left. rewrite <- (firstn_skipn k l) at 1.
  apply Permutation_app_comm.
Qed.

Lemma rotate_left_split (pre post : list string) :
  rotate_left (length pre) (pre ++ post) = post ++ pre.
Proof.
  unfold rotate_left.
  rewrite skipn_app, firstn_app, Nat.sub_diag, skipn_all, firstn_all.
  simpl. now rewrite app_nil_r.
Qed.

(** The loop entered with a member of the chord: the chord comes back
    rotated, after fewer runs than it has notes. *)
Lemma rotate_until_member (chord_notes : list string) (bass : string) (fuel : nat) :
  mem bass chord_notes = true -> length chord_notes - 1 <= fuel ->
  exists k rest,
    rotate_until fuel chord_notes bass 0 = Ok (bass :: rest, k) /\
    k <= length chord_notes - 1 /\
    bass :: rest = rotate_left k chord_notes.
Proof.
  intros Hmem Hfuel.
  destruct (mem_first_split _ _ Hmem) as (pre & post & -> & Hpre).
  rewrite length_app in *. simpl in *.
  exists (length pre), (post ++ pre).
  rewrite (rotate_until_found bass pre Hpre) by lia.
  repeat split; [lia|].
  now rewrite rotate_left_split.
Qed.

(** ** Inversion *)

(** The three ways through [inversion_by_bass_note]: no bass note, a bass
    note that is not in the chord, a bass note found in it (under its own
    name or the other one). *)
Lemma inversion_trace_cases (fuel : nat) (chord_notes : list string) (bass_note : string) :
  length chord_notes - 1 <= fuel ->
  (bass_note = "" /\
   inversion_trace_fuel fuel chord_notes bass_note = (Ok (chord_notes, 0), []))
  \/
  (bass_note <> "" /\ ~ In bass_note chord_notes /\
   (forall other, dict_get enharmonic bass_note = Some other -> ~ In other chord_notes) /\
   inversion_trace_fuel fuel chord_notes bass_note
   = (Ok (chord_notes, 0), [BassNotFound bass_note chord_notes]))
  \/
  (bass_note <> "" /\
   exists target k rest,
     (target = bass_note \/ dict_get enharmonic bass_note = Some target) /\
     In target chord_notes /\
     inversion_trace_fuel fuel chord_notes bass_note = (Ok (target :: rest, k), []) /\
     k <= length chord_notes - 1 /\
     target :: rest = rotate_left k chord_notes).
Proof.
  intros Hfuel. unfold inversion_trace_fuel.
  destruct (String.eqb bass_note "") eqn:Hempty.
  { left. apply String.eqb_eq in Hempty. now split. }
  apply String.eqb_neq in Hempty. right.
  assert (Hrot : forall target,
             mem target chord_notes = true ->
             exists k rest,
               (rotate_until fuel chord_notes target 0, @nil Diag)
               = (Ok (target :: rest, k), []) /\
               k <= length chord_notes - 1 /\
               target :: rest = rotate_left k chord_notes).
  { intros target Hmem.
    destruct (rotate_until_member chord_notes target fuel Hmem Hfuel)
      as (k & rest & -> & Hk & Hrest).
    now exists k, rest. }
  destruct (dict_get enharmonic bass_note) as [other|] eqn:Henh.
  - destruct (mem other chord_notes) eqn:Hother.
    + right. split; [assumption|].
      destruct (Hrot other Hother) as (k & rest & Heq & Hk & Hrest).
      exists other, k, rest. repeat split; auto.
      now apply mem_In.
    + destruct (mem bass_note chord_notes) eqn:Hbass; simpl.
      * right. split; [assumption|].
        destruct (Hrot bass_note Hbass) as (k & rest & Heq & Hk & Hrest).
        exists bass_note, k, rest. repeat split; auto.
        now apply mem_In.
      * left. repeat split; auto.
        -- now apply mem_not_In.
        -- intros other' [= <-]. now apply mem_not_In.
  - destruct (mem bass_note chord_notes) eqn:Hbass; simpl.
    + right. split; [assumption|].
      destruct (Hrot bass_note Hbass) as (k & rest & Heq & Hk & Hrest).
      exists bass_note, k, rest. repeat split; auto.
      now apply mem_In.
    + left. repeat split; auto.
      * now apply mem_not_In.
      * intros other' [=].
Qed.

Lemma inversion_by_bass_note_trace (chord_notes : list string) (bass_note : string)
  (r : list string * nat) (out : list Diag) :
  inversion_trace chord_notes bass_note = (Ok r, out) ->
  inversion_by_bass_note chord_notes bass_note = (Ok (fst r), out).
Proof.
  unfold inversion_by_bass_note. intros ->. simpl. now rewrite app_nil_r.
Qed.

(** C6: when the bass note or its enharmonic equivalent is in the chord,
    inversion returns the chord rotated to the left, with the same notes as
    many times each, and the note at position 0 of the result is the bass
    note or its enharmonic equivalent.  A bass note is a text that is not
    empty: the empty text is what the source takes for no bass note given,
    and the chord then comes back as it is, which is a rotation too. *)
Theorem inversion_rotates_to_bass (chord_notes : list string) (bass_note : string) :
  In bass_note chord_notes \/
  (exists other, dict_get enharmonic bass_note = Some other /\ In other chord_notes) ->
  exists k inverted,
    inversion_by_bass_note chord_notes bass_note = (Ok inverted, []) /\
    k < length chord_notes /\
    inverted = rotate_left k chord_notes /\
    Permutation chord_notes inverted /\
    (bass_note <> "" ->
     exists first,
       nth_error inverted 0 = Some first /\
       (first = bass_note \/ dict_get enharmonic bass_note = Some first)).
Proof.
  intros Hin.
  assert (Hlen : 0 < length chord_notes).
  { destruct chord_notes; simpl; [|lia].
    destruct Hin as [[]|(? & _ & [])]. }
  destruct (inversion_trace_cases (length chord_notes) chord_notes bass_note)
    as [(Hempty & Heq) | [(Hne & Hnot & Hnot' & Heq) | (Hne & target & k & rest & Htarget & Hmem & Heq & Hk & Hrot)]];
    [lia | | |].
  - exists 0, chord_notes.
    rewrite (inversion_by_bass_note_trace _ _ _ _ Heq). simpl.
    unfold rotate_left. simpl. rewrite app_nil_r.
    repeat split; auto. congruence.
  - exfalso. destruct Hin as [Hin | (other & Hother & Hin)];
      [now apply Hnot | now apply (Hnot' other)].
  - exists k, (target :: rest).
    rewrite (inversion_by_bass_note_trace _ _ _ _ Heq). simpl.
    repeat split; [lia | assumption | |].
    + rewrite Hrot. apply rotate_left_Permutation.
    + intros _. now exists target.
Qed.

Lemma inversion_rotates_to_bass_witness :
  exists k inverted,
    inversion_by_bass_note ["D"; "F"; "A"; "C"] "F" = (Ok inverted, []) /\
    k < length ["D"; "F"; "A"; "C"] /\
    inverted = rotate_left k ["D"; "F"; "A"; "C"] /\
    Permutation ["D"; "F"; "A"; "C"] inverted /\
    ("F" <> "" ->
     exists first,
       nth_error inverted 0 = Some first /\
       (first = "F" \/ dict_get enharmonic "F" = Some first)).
Proof.
  apply (inversion_rotates_to_bass ["D"; "F"; "A"; "C"] "F").
  left. simpl. right. left. reflexivity.
Defined.

(** C7: when neither the bass note nor its enharmonic equivalent is in the
    chord, inversion returns the chord unchanged, prints the warning that
    the bass note was not found and does not fail; building "C/F#" gives
    the triad C, E, G unchanged and the warning.  A bass note is a text that
    is not empty: for the empty text, which the source takes for no bass
    note given, the chord comes back unchanged and nothing is printed. *)
Theorem inversion_absent_bass_unchanged (chord_notes : list string) (bass_note : string) :
  ~ In bass_note chord_notes ->
  (forall other, dict_get enharmonic bass_note = Some other -> ~ In other chord_notes) ->
  inversion_by_bass_note chord_notes bass_note
  = (Ok chord_notes,
     if String.eqb bass_note "" then []
     else [BassNotFound bass_note chord_notes]) /\
  result (get_chord_from_string "C/F#") = Ok (Some ["C"; "E"; "G"]) /\
  In (BassNotFound "Gb" ["C"; "E"; "G"]) (output (get_chord_from_string "C/F#")).
Proof.
  intros Hnot Hnot'. split; [|split; [reflexivity | vm_compute; tauto]].
  destruct (inversion_trace_cases (length chord_notes) chord_notes bass_note)
    as [(Hempty & Heq) | [(Hne & _ & _ & Heq) | (Hne & target & k & rest & Htarget & Hmem & _)]];
    [lia | | |].
  - rewrite (inversion_by_bass_note_trace _ _ _ _ Heq). now subst.
  - rewrite (inversion_by_bass_note_trace _ _ _ _ Heq).
    apply String.eqb_neq in Hne. now rewrite Hne.
  - exfalso. destruct Htarget as [-> | Htarget];
      [now apply Hnot | now apply (Hnot' target)].
Qed.

Lemma inversion_absent_bass_unchanged_witness :
  inversion_by_bass_note ["C"; "E"; "G"] "Gb"
  = (Ok ["C"; "E"; "G"],
     if String.eqb "Gb" "" then []
     else [BassNotFound "Gb" ["C"; "E"; "G"]]) /\
  result (get_chord_from_string "C/F#") = Ok (Some ["C"; "E"; "G"]) /\
  In (BassNotFound "Gb" ["C"; "E"; "G"]) (output (get_chord_from_string "C/F#")).
Proof.
  apply (inversion_absent_bass_unchanged ["C"; "E"; "G"] "Gb").
  - simpl. intros [H | [H | [H | []]]]; discriminate H.
  - simpl. intros other H. injection H as <-.
    simpl. intros [H | [H | [H | []]]]; discriminate H.
Defined.

(** C10: for a non-empty chord and any bass note, the body of the rotation
    loop runs at most [length - 1] times and inversion returns, whatever
    fuel of at least that many runs the loop is given; and the body runs at
    all only when the bass note or its enharmonic equivalent is in the
    chord. *)
Theorem inversion_loop_bound (chord_notes : list string) (bass_note : string) (fuel : nat) :
  chord_notes <> [] ->
  length chord_notes - 1 <= fuel ->
  exists inverted runs,
    result (inversion_trace_fuel fuel chord_notes bass_note) = Ok (inverted, runs) /\
    runs <= length chord_notes - 1 /\
    (0 < runs ->
     In bass_note chord_notes \/
     exists other, dict_get enharmonic bass_note = Some other /\ In other chord_notes).
Proof.
  intros _ Hfuel.
  destruct (inversion_trace_cases fuel chord_notes bass_note Hfuel)
    as [(Hempty & Heq) | [(Hne & _ & _ & Heq) | (Hne & target & k & rest & Htarget & Hmem & Heq & Hk & _)]];
    rewrite Heq; simpl.
  - exists chord_notes, 0. repeat split; lia.
  - exists chord_notes, 0. repeat split; lia.
  - exists (target :: rest), k. repeat split; [assumption|].
    intros _. destruct Htarget as [-> | Htarget]; [now left|].
    right. now exists target.
Qed.

Lemma inversion_loop_bound_witness :
  exists inverted runs,
    result (inversion_trace_fuel 2 ["C"; "E"; "G"] "G") = Ok (inverted, runs) /\
    runs <= length ["C"; "E"; "G"] - 1 /\
    (0 < runs ->
     In "G" ["C"; "E"; "G"] \/
     exists other, dict_get enharmonic "G" = Some other /\ In other ["C"; "E"; "G"]).
Proof.
  apply (inversion_loop_bound ["C"; "E"; "G"] "G" 2);
    [discriminate | simpl; apply le_n].
Defined.

(** ** The chromatic table and the seventh *)

Lemma find_note_range (note : string) (i : Z) :
  find_note note notes 0 = Some i ->
  In i [0; 1; 2; 3; 4; 5; 6; 7; 8; 9; 10; 11]%Z.
Proof.
  unfold notes. cbn [find_note].
  repeat match goal with
         | |- context [mem note ?l] =>
             destruct (mem note l);
             [intros [= <-]; simpl; tauto|]
         end.
  discriminate.
Qed.

(** One semitone up from a note of the table: the next index, modulo 12. *)
Lemma raise_note_index (note : string) (i : Z) :
  find_note note notes 0 = Some i ->
  exists next,
    raise_note_by_semitone note = (Ok next, []) /\
    find_note next notes 0 = Some ((i + 1) mod 12)%Z.
Proof.
  intros Hfind. pose proof (find_note_range note i Hfind) as Hrange.
  unfold raise_note_by_semitone, get_note_index. rewrite Hfind.
  simpl in Hrange.
  repeat (destruct Hrange as [<- | Hrange];
          [eexists; split; reflexivity|]).
  contradiction.
Qed.

(** [interval] semitones up. *)
Lemma walk_up_index (interval : nat) :
  forall (note : string) (i : Z),
    find_note note notes 0 = Some i ->
    exists reached,
      walk_up interval note = (Ok reached, []) /\
      find_note reached notes 0 = Some ((i + Z.of_nat interval) mod 12)%Z.
Proof.
  induction interval as [|k IH]; intros note i Hfind.
  - exists note. split; [reflexivity|].
    rewrite Z.add_0_r, Z.mod_small; [assumption|].
    pose proof (find_note_range note i Hfind) as Hrange. simpl in Hrange. lia.
  - destruct (raise_note_index note i Hfind) as (next & Hraise & Hnext).
    destruct (IH next _ Hnext) as (reached & Hwalk & Hreached).
    exists reached. split.
    + cbn [walk_up]. rewrite Hraise. unfold bind. now rewrite Hwalk.
    + rewrite Hreached. rewrite Z.add_mod_idemp_l by lia. f_equal. f_equal. lia.
Qed.

(** The two spellings of [accidental_map] sit at the same index. *)
Lemma accidental_map_same_index (note other : string) :
  dict_get accidental_map note = Some other ->
  find_note other notes 0 = find_note note notes 0.
Proof.
  unfold accidental_map. cbn [dict_get].
  repeat match goal with
         | |- context [String.eqb note ?k] =>
             destruct (String.eqb_spec note k);
             [subst note; intros [= <-]; reflexivity|]
         end.
  discriminate.
Qed.

(** C9: for a chord whose first note is in the chromatic table and each of
    the five seventh kinds, with its distance in semitones, the seventh is
    one note appended to the unchanged chord, at the index of the root plus
    the distance, modulo 12. *)
Theorem seventh_appends_interval (root_note : string) (others : list string)
  (i : Z) (kind : string) (distance : Z) :
  result (get_note_index root_note) = Ok i ->
  In (kind, distance)
     [("maj7", 11); ("7", 10); ("m7", 10); ("dim7", 9); ("aug7", 10)]%Z ->
  exists added,
    make_seventh_chord (root_note :: others) kind
    = (Ok ((root_note :: others) ++ [added]), []) /\
    result (get_note_index added) = Ok ((i + distance) mod 12)%Z.
Proof.
  intros Hroot Hkind.
  assert (Hfind : find_note root_note notes 0 = Some i).
  { unfold get_note_index in Hroot.
    destruct (find_note root_note notes 0); simpl in Hroot; congruence. }
  assert (Hidx : forall n j, find_note n notes 0 = Some j ->
                             result (get_note_index n) = Ok j).
  { intros n j H. unfold get_note_index. now rewrite H. }
  simpl in Hkind.
  destruct Hkind as [[= <- <-] | [[= <- <-] | [[= <- <-] | [[= <- <-] | [[= <- <-] | []]]]]];
    unfold make_seventh_chord;
    match goal with
    | |- context [dict_get seventh_intervals ?k] =>
        let n := eval vm_compute in (dict_get seventh_intervals k) in
        change (dict_get seventh_intervals k) with n
    end;
    cbv beta iota;
    match goal with
    | |- context [walk_up ?n _] =>
        destruct (walk_up_index n root_note i Hfind) as (reached & Hwalk & Hreached)
    end;
    change (py_index (root_note :: others) 0) with (@ret string root_note);
    unfold bind at 1; unfold ret at 1; cbv beta iota; rewrite Hwalk;
    simpl String.eqb; cbv beta iota.
  1-3, 5: exists reached; split; [reflexivity | now apply Hidx].
  (* dim7: a sharp spelling gives way to the flat one *)
  unfold bind, ret, try_except; cbv beta iota; cbn [app andb].
  destruct (negb (PyStr.contains "b" reached) && PyStr.contains "#" reached);
    [|exists reached; split; [reflexivity | now apply Hidx]].
  destruct (dict_get accidental_map reached) as [flat|] eqn:Hflat;
    [|exists reached; split; [reflexivity | now apply Hidx]].
  exists flat. split; [reflexivity|].
  apply Hidx. now rewrite (accidental_map_same_index _ _ Hflat).
Qed.

Lemma seventh_appends_interval_witness :
  exists added,
    make_seventh_chord ("D" :: ["F"; "A"]) "m7"
    = (Ok (("D" :: ["F"; "A"]) ++ [added]), []) /\
    result (get_note_index added) = Ok ((2 + 10) mod 12)%Z.
Proof.
  apply (seventh_appends_interval "D" ["F"; "A"] 2 "m7" 10).
  - reflexivity.
  - simpl. right. right. left. reflexivity.
Defined.

(** ** The enharmonic table *)

(** C4, as the code has it: C, D, E, G, A and B are not keys of the
    enharmonic table, and a lookup of any of them finds nothing; F is a key,
    paired with E#. *)
Theorem enharmonic_naturals :
  Forall (fun natural => dict_get enharmonic natural = None
                         /\ dict_mem enharmonic natural = false)
         ["C"; "D"; "E"; "G"; "A"; "B"] /\
  dict_get enharmonic "F" = Some "E#" /\
  dict_get enharmonic "E#" = Some "F".
Proof.
  split; [|split; reflexivity].
  repeat constructor.
Qed.

(** C4 as stated fails: the natural F is a key of the table. *)
Lemma enharmonic_has_F :
  In "F" ["C"; "D"; "E"; "F"; "G"; "A"; "B"] /\
  dict_mem enharmonic "F" = true /\
  dict_get enharmonic "F" <> None.
Proof.
  split; [simpl; tauto|]. split; [reflexivity | discriminate].
Qed.

(** ** Worked chords *)

(** C8: "Dm7/F" is parsed as root D, minor, minor seventh, bass F, and the
    chord built from it has the four notes D, F, A, C with F first. *)
Theorem Dm7_over_F :
  result (parse_chord_string "Dm7/F")
  = Ok (mkDescriptor "D" true false (Some "m7") (Some "F")) /\
  exists built,
    result (get_chord_from_string "Dm7/F") = Ok (Some built) /\
    length built = 4 /\
    Permutation built ["D"; "F"; "A"; "C"] /\
    nth_error built 0 = Some "F".
Proof.
  split; [vm_compute; reflexivity|].
  exists ["F"; "A"; "C"; "D"].
  split; [vm_compute; reflexivity|].
  repeat split.
  apply Permutation_sym.
  apply (Permutation_cons_append ["F"; "A"; "C"] "D").
Qed.



(** ** No call is left hanging, and the builder catches what is raised *)


Lemma halts_ret {A : Type} (a : A) : halts (ret a).
Proof. discriminate. Qed.

Lemma halts_throw {A : Type} (e : exn) : halts (@throw A e).
Proof. discriminate. Qed.

Lemma halts_print (d : Diag) : halts (print d).
Proof. discriminate. Qed.

Lemma halts_bind {A B : Type} (m : M A) (f : A -> M B) :
  halts m -> (forall a, halts (f a)) -> halts (bind m f).
Proof.
  unfold halts, result. intros Hm Hf.
  destruct m as [[a | e |] out]; simpl in *; try congruence.
  specialize (Hf a). destruct (f a) as [r out']. exact Hf.
Qed.

Lemma halts_try_except {A : Type} (m : M A) (handler : exn -> M A) :
  halts m -> (forall e, halts (handler e)) -> halts (try_except m handler).
Proof.
  unfold halts, result. intros Hm Hh.
  destruct m as [[a | e |] out]; simpl in *; try congruence.
  specialize (Hh e). destruct (handler e) as [r out']. exact Hh.
Qed.

Lemma halts_py_index {A : Type} (l : list A) (i : Z) : halts (py_index l i).
Proof.
  unfold py_index.
  destruct (_ <? 0)%Z; [apply halts_throw|].
  destruct (nth_error _ _); [apply halts_ret | apply halts_throw].
Qed.

Lemma halts_py_store {A : Type} (l : list A) (i : Z) (v : A) :
  halts (py_store l i v).
Proof.
  unfold py_store.
  destruct (_ <? 0)%Z; [apply halts_throw|].
  destruct (set_nth _ _ _); [apply halts_ret | apply halts_throw].
Qed.

Lemma halts_get_note_index (note : string) : halts (get_note_index note).
Proof.
  unfold get_note_index.
  destruct (find_note _ _ _); [apply halts_ret | apply halts_throw].
Qed.

Create HintDb halts.
#[local] Hint Resolve halts_ret halts_throw halts_print halts_py_index
  halts_py_store halts_get_note_index : halts.

(** Takes a computation apart along its binds, handlers and tests. *)
Ltac halts_step :=
  match goal with
  | |- halts (bind _ _) => apply halts_bind; [|intros]
  | |- halts (try_except _ _) => apply halts_try_except; [|intros]
  | |- halts (if ?c then _ else _) => destruct c
  | |- halts (match ?x with _ => _ end) => destruct x
  | |- halts (let _ := _ in _) => cbv zeta
  | |- halts _ => solve [auto with halts]
  end.

Lemma halts_lower_note (note : string) : halts (lower_note_by_semitone note).
Proof. unfold lower_note_by_semitone. repeat halts_step. Qed.

Lemma halts_raise_note (note : string) : halts (raise_note_by_semitone note).
Proof. unfold raise_note_by_semitone. repeat halts_step. Qed.

#[local] Hint Resolve halts_lower_note halts_raise_note : halts.

Lemma halts_make_minor_chord (chord_notes : list string) :
  halts (make_minor_chord chord_notes).
Proof. unfold make_minor_chord. repeat halts_step. Qed.

Lemma halts_make_diminished_chord (chord_notes : list string) :
  halts (make_diminished_chord chord_notes).
Proof. unfold make_diminished_chord. repeat halts_step. Qed.

Lemma halts_walk_up (interval : nat) :
  forall note, halts (walk_up interval note).
Proof.
  induction interval as [|k IH]; intros note; cbn [walk_up]; repeat halts_step.
Qed.

#[local] Hint Resolve halts_make_minor_chord halts_make_diminished_chord
  halts_walk_up : halts.

Lemma halts_make_seventh_chord (chord_notes : list string) (chord_type : string) :
  halts (make_seventh_chord chord_notes chord_type).
Proof. unfold make_seventh_chord. repeat halts_step. Qed.

(** Inversion always returns: its loop is entered with a note of the chord
    only. *)
Lemma inversion_by_bass_note_returns (chord_notes : list string) (bass_note : string) :
  exists inverted out,
    inversion_by_bass_note chord_notes bass_note = (Ok inverted, out).
Proof.
  destruct (inversion_trace_cases (length chord_notes) chord_notes bass_note)
    as [(_ & Heq) | [(_ & _ & _ & Heq) | (_ & target & k & rest & _ & _ & Heq & _)]];
    [lia | | |];
    rewrite (inversion_by_bass_note_trace _ _ _ _ Heq); eauto.
Qed.

Lemma halts_inversion_by_bass_note (chord_notes : list string) (bass_note : string) :
  halts (inversion_by_bass_note chord_notes bass_note).
Proof.
  destruct (inversion_by_bass_note_returns chord_notes bass_note)
    as (inverted & out & ->).
  discriminate.
Qed.

#[local] Hint Resolve halts_make_seventh_chord halts_inversion_by_bass_note : halts.

Lemma halts_parse_chord_string (chord_string : string) :
  halts (parse_chord_string chord_string).
Proof.
  unfold parse_chord_string. apply halts_bind.
  - repeat halts_step.
  - intros [chord_part bass].
    repeat match goal with
           | |- context [if ?c then _ else _] => destruct c
           end;
      repeat halts_step.
Qed.

#[local] Hint Resolve halts_parse_chord_string : halts.

(** [get_chord_from_string] returns for every text: a chord, or [None]. *)
Lemma get_chord_from_string_returns (chord_string : string) :
  exists built out, get_chord_from_string chord_string = (Ok built, out).
Proof.
  assert (H : halts (get_chord_from_string chord_string)).
  { unfold get_chord_from_string. repeat halts_step. }
  unfold halts, result in H.
  destruct (get_chord_from_string chord_string) as [[built | e |] out] eqn:E;
    [eauto | | simpl in H; congruence].
  exfalso. unfold get_chord_from_string, try_except in E.
  destruct (bind _ _) as [[? | ? |] ?]; simpl in E; congruence.
Qed.

(** ** Parsing *)

Lemma contains_slash (s : string) :
  PyStr.contains "/" s = negb (Nat.eqb (PyStr.count_char "/" s) 0).
Proof.
  induction s as [|c r IH]; [reflexivity|].
  cbn [PyStr.contains PyStr.count_char prefix].
  destruct (ascii_dec "/" c) as [<- | Hne].
  - destruct r; reflexivity.
  - assert (E : Ascii.eqb c "/" = false)
      by (apply Ascii.eqb_neq; congruence).
    rewrite E, IH. reflexivity.
Qed.

Lemma split_length (sep : ascii) (s : string) :
  length (PyStr.split sep s) = S (PyStr.count_char sep s).
Proof.
  induction s as [|c r IH]; [reflexivity|].
  cbn [PyStr.split PyStr.count_char].
  destruct (Ascii.eqb c sep); simpl.
  - now rewrite IH.
  - destruct (PyStr.split sep r); simpl in *; lia.
Qed.

(** What follows the split in [parse_chord_string] never raises. *)
Ltac parse_rest :=
  unfold bind, ret, print; cbv beta iota;
  repeat match goal with
         | |- context [if ?c then _ else _] => destruct c
         | |- context [match dict_get ?d ?k with _ => _ end] =>
             destruct (dict_get d k)
         end;
  cbn [app]; eexists (mkDescriptor _ _ _ _ _), _; reflexivity.

(** C2, as the code has it: for a text with at most one "/",
    [parse_chord_string] returns a descriptor and prints it; for a text with
    two or more it raises [ValueError], which [get_chord_from_string]
    catches, printing the problem and returning [None]. *)
Theorem parse_chord_string_slashes (chord_string : string) :
  let too_many := ValueError "too many values to unpack (expected 2)" in
  if Nat.leb (PyStr.count_char "/" chord_string) 1 then
    exists d chord_part,
      parse_chord_string chord_string
      = (Ok d, [Parsed chord_part (root d) (is_minor d) (is_dim d)
                       (seventh d) (bass d)])
  else
    parse_chord_string chord_string = (Raise too_many, []) /\
    get_chord_from_string chord_string
    = (Ok None, [ProblemWithChord chord_string too_many]).
Proof.
  intros too_many.
  pose proof (contains_slash chord_string) as Hcontains.
  pose proof (split_length "/" chord_string) as Hsplit.
  destruct (Nat.leb (PyStr.count_char "/" chord_string) 1) eqn:Hcount.
  - apply Nat.leb_le in Hcount. unfold parse_chord_string.
    destruct (PyStr.count_char "/" chord_string) as [|[|n]]; [| |lia];
      rewrite Hcontains; cbn [Nat.eqb negb].
    + parse_rest.
    + destruct (PyStr.split "/" chord_string) as [|a [|b [|c l]]];
        try discriminate Hsplit.
      parse_rest.
  - apply Nat.leb_gt in Hcount.
    assert (Hparse : parse_chord_string chord_string = (Raise too_many, [])).
    { unfold parse_chord_string. rewrite Hcontains.
      destruct (PyStr.count_char "/" chord_string) as [|[|n]]; [lia | lia |].
      cbn [Nat.eqb negb].
      destruct (PyStr.split "/" chord_string) as [|a [|b [|c l]]];
        try discriminate Hsplit.
      reflexivity. }
    split; [assumption|].
    unfold get_chord_from_string. rewrite Hparse. reflexivity.
Qed.

(** C2 as stated fails: a text with two slashes makes [parse_chord_string]
    raise. *)
Lemma parse_chord_string_raises :
  result (parse_chord_string "C/E/G")
  = Raise (ValueError "too many values to unpack (expected 2)").
Proof. reflexivity. Qed.

(** ** Assembling a progression *)

Section Assembly.

Context {D Pitch : Type}.
Variable Note : string -> res Pitch.
Variables (octave : Z) (duration : D).

Lemma reads_exists (texts : list string) :
  (forall text, In text texts -> exists pitch, Note text = Ok pitch) ->
  exists pitches, reads Note texts pitches.
Proof.
  induction texts as [|text rest IH]; intros Hall.
  - exists []. constructor.
  - destruct (Hall text (or_introl eq_refl)) as (pitch & Hpitch).
    destruct IH as (pitches & Hrest).
    { intros t Ht. apply Hall. now right. }
    exists (pitch :: pitches). now constructor.
Qed.

(** The loop over the notes of a chord prints nothing; it returns the notes
    of the pitches read, behind those it was given, or stops at the first
    text the library does not read. *)
Lemma append_m21_notes_spec (chord_notes : list string) :
  forall acc : list (m21_note D Pitch),
    output (append_m21_notes Note chord_notes octave duration acc) = [] /\
    match result (append_m21_notes Note chord_notes octave duration acc) with
    | Ok m21_notes =>
        exists pitches,
          m21_notes = acc ++ map (fun pitch => mkNote pitch duration) pitches /\
          reads Note (map (chord_note_text octave) chord_notes) pitches
    | Raise e =>
        exists note, In note chord_notes /\
                     Note (chord_note_text octave note) = Raise e
    | Diverge =>
        exists note, In note chord_notes /\
                     Note (chord_note_text octave note) = Diverge
    end.
Proof.
  induction chord_notes as [|note rest IH]; intros acc.
  - split; [reflexivity|]. exists []. split; [simpl; now rewrite app_nil_r | constructor].
  - cbn [append_m21_notes]. fold (chord_note_text octave note).
    unfold quiet, bind.
    destruct (Note (chord_note_text octave note)) as [pitch | e |] eqn:Hnote.
    + specialize (IH (acc ++ [mkNote pitch duration])).
      destruct (append_m21_notes Note rest octave duration
                  (acc ++ [mkNote pitch duration])) as [r out].
      cbn [result output fst snd] in *. destruct IH as (-> & IH).
      split; [reflexivity|].
      destruct r as [m21_notes | e |].
      * destruct IH as (pitches & -> & Hreads).
        exists (pitch :: pitches). split.
        -- rewrite <- app_assoc. reflexivity.
        -- constructor; assumption.
      * destruct IH as (n & Hin & Hn). exists n. split; [now right | assumption].
      * destruct IH as (n & Hin & Hn). exists n. split; [now right | assumption].
    + split; [reflexivity|]. exists note. split; [now left | assumption].
    + split; [reflexivity|]. exists note. split; [now left | assumption].
Qed.

(** A chord is made of a list with names in it unless the library raises. *)
Lemma create_music21_chord_spec (first : string) (others : list string) :
  output (create_music21_chord Note (Some (first :: others)) octave duration) = [] /\
  match result (create_music21_chord Note (Some (first :: others))
                                     octave duration) with
  | Ok (Some chord_obj) =>
      reads_as Note duration
               (map (chord_note_text octave) (first :: others)) chord_obj /\
      exists first_note other_notes, chord_obj = ChordOf (first_note :: other_notes)
  | Ok None => False
  | Raise e =>
      exists note, In note (first :: others) /\
                   Note (chord_note_text octave note) = Raise e
  | Diverge =>
      exists note, In note (first :: others) /\
                   Note (chord_note_text octave note) = Diverge
  end.
Proof.
  unfold create_music21_chord.
  pose proof (append_m21_notes_spec (first :: others) []) as Hloop.
  destruct (append_m21_notes Note (first :: others) octave duration [])
    as [r out].
  cbn [result output fst snd] in Hloop. destruct Hloop as (-> & Hloop).
  unfold bind. destruct r as [m21_notes | e |]; cbn [result output fst snd ret app].
  - split; [reflexivity|].
    destruct Hloop as (pitches & -> & Hreads). cbn [app].
    split.
    + split.
      * rewrite map_map. cbn [note_pitch]. now rewrite map_id.
      * apply Forall_map. apply Forall_forall. now intros.
    + inversion Hreads; subst. cbn [map]. eauto.
  - now split.
  - now split.
Qed.

Lemma chord_entry_length (token : string) (here : list (element D Pitch)) :
  chord_entry Note octave duration token = Ok here ->
  length here = if builds token then 1 else 0.
Proof.
  unfold chord_entry, builds.
  destruct (result (get_chord_from_string token)) as [[[|first others]|] | e |];
    try (intros [= <-]; reflexivity).
  pose proof (create_music21_chord_spec first others) as (_ & Hspec).
  destruct (result (create_music21_chord Note (Some (first :: others))
                                         octave duration))
    as [[chord_obj|] | e |]; try discriminate; try contradiction.
  now intros [= <-].
Qed.

Lemma entries_length (tokens : list string) :
  forall chords,
    entries Note octave duration tokens = Ok chords ->
    length chords = length (filter builds tokens).
Proof.
  induction tokens as [|token rest IH]; intros chords.
  - now intros [= <-].
  - cbn [entries filter].
    destruct (chord_entry Note octave duration token) as [here | e |] eqn:Hhere;
      try discriminate.
    destruct (entries Note octave duration rest) as [after | e |];
      try discriminate.
    intros [= <-]. rewrite length_app, (IH after eq_refl).
    rewrite (chord_entry_length token here Hhere).
    now destruct (builds token).
Qed.

(** The loop over the texts looks at every text in turn and adds its entry
    behind those of the texts before it; only an exception of the library
    ends it early. *)
Lemma append_chords_entries (tokens : list string) :
  forall acc : m21_stream D Pitch,
    result (append_chords Note tokens octave duration acc)
    = match entries Note octave duration tokens with
      | Ok chords => Ok (acc ++ chords)
      | Raise e => Raise e
      | Diverge => Diverge
      end.
Proof.
  induction tokens as [|token tokens IH]; intros acc.
  - simpl. now rewrite app_nil_r.
  - cbn [append_chords entries]. unfold chord_entry.
    destruct (get_chord_from_string_returns token) as (built & out & Hbuilt).
    rewrite Hbuilt. unfold bind at 1. cbn [result fst].
    assert (Hskip : forall stream' : m21_stream D Pitch,
               result (let (r, out') :=
                         bind (ret stream')
                              (fun stream =>
                                 append_chords Note tokens octave duration stream)
                       in (r, out ++ out'))
               = match entries Note octave duration tokens with
                 | Ok after => Ok (stream' ++ after)
                 | Raise e => Raise e
                 | Diverge => Diverge
                 end).
    { intros stream'. unfold bind, ret. specialize (IH stream').
      destruct (append_chords Note tokens octave duration stream') as [r o].
      exact IH. }
    destruct built as [[|first others]|].
    + rewrite Hskip.
      destruct (entries Note octave duration tokens); now rewrite ?app_nil_r.
    + pose proof (create_music21_chord_spec first others) as (_ & Hspec).
      destruct (create_music21_chord Note (Some (first :: others))
                                     octave duration)
        as [[[chord_obj|] | e |] o'];
        cbn [result fst] in Hspec |- *; try contradiction.
      * unfold bind, ret. specialize (IH (acc ++ [chord_obj])).
        destruct (append_chords Note tokens octave duration (acc ++ [chord_obj]))
          as [r o]. cbn [result fst] in IH |- *. rewrite IH.
        destruct (entries Note octave duration tokens);
          now rewrite <- ?app_assoc.
      * reflexivity.
      * reflexivity.
    + rewrite Hskip.
      destruct (entries Note octave duration tokens); now rewrite ?app_nil_r.
Qed.

(** The bass line has a note for each name when the library reads them
    all. *)
Lemma append_notes_spec (bass_notes : list string) :
  forall acc : m21_stream D Pitch,
    output (append_notes Note bass_notes octave duration acc) = [] /\
    match result (append_notes Note bass_notes octave duration acc) with
    | Ok stream =>
        exists pitches,
          stream = acc ++ map (fun pitch => NoteOf (mkNote pitch duration)) pitches /\
          reads Note (map (bass_note_text octave) bass_notes) pitches
    | Raise e =>
        exists name, In name bass_notes /\
                     Note (bass_note_text octave name) = Raise e
    | Diverge =>
        exists name, In name bass_notes /\
                     Note (bass_note_text octave name) = Diverge
    end.
Proof.
  induction bass_notes as [|name rest IH]; intros acc.
  - split; [reflexivity|]. exists []. split; [simpl; now rewrite app_nil_r | constructor].
  - cbn [append_notes]. unfold create_music21_note.
    fold (bass_note_text octave name). unfold quiet, bind, ret.
    destruct (Note (bass_note_text octave name)) as [pitch | e |] eqn:Hnote.
    + specialize (IH (acc ++ [NoteOf (mkNote pitch duration)])).
      destruct (append_notes Note rest octave duration
                  (acc ++ [NoteOf (mkNote pitch duration)])) as [r out].
      cbn [result output fst snd app] in *. destruct IH as (-> & IH).
      split; [reflexivity|].
      destruct r as [stream | e |].
      * destruct IH as (pitches & -> & Hreads).
        exists (pitch :: pitches). split.
        -- rewrite <- app_assoc. reflexivity.
        -- constructor; assumption.
      * destruct IH as (n & Hin & Hn). exists n. split; [now right | assumption].
      * destruct IH as (n & Hin & Hn). exists n. split; [now right | assumption].
    + split; [reflexivity|]. exists name. split; [now left | assumption].
    + split; [reflexivity|]. exists name. split; [now left | assumption].
Qed.

Lemma create_bass_line_length (bass_progression : names_arg)
  (bass_notes : m21_stream D Pitch) :
  result (create_bass_line Note bass_progression octave duration) = Ok bass_notes ->
  length bass_notes = length (names_of bass_progression).
Proof.
  unfold create_bass_line.
  pose proof (append_notes_spec (names_of bass_progression) []) as (_ & Hspec).
  intros Heq. rewrite Heq in Hspec. destruct Hspec as (pitches & -> & Hreads).
  cbn [app]. rewrite length_map.
  apply Forall2_length in Hreads. now rewrite length_map in Hreads.
Qed.

Lemma create_chord_progression_entries (progression : names_arg) :
  result (create_chord_progression Note progression octave duration)
  = entries Note octave duration (names_of progression).
Proof.
  unfold create_chord_progression. rewrite append_chords_entries.
  now destruct (entries Note octave duration (names_of progression)).
Qed.

Lemma append_m21_notes_reads (chord_notes : list string) :
  forall (pitches : list Pitch) (acc : list (m21_note D Pitch)),
    reads Note (map (chord_note_text octave) chord_notes) pitches ->
    append_m21_notes Note chord_notes octave duration acc
    = (Ok (acc ++ map (fun pitch => mkNote pitch duration) pitches), []).
Proof.
  induction chord_notes as [|note rest IH]; intros pitches acc Hreads;
    inversion Hreads as [|text pitch texts pitches' Hnote Hrest]; subst.
  - simpl. now rewrite app_nil_r.
  - cbn [append_m21_notes]. fold (chord_note_text octave note).
    rewrite Hnote. unfold quiet, bind.
    rewrite (IH pitches' _ Hrest). cbn [map app].
    now rewrite <- app_assoc.
Qed.

Lemma chord_entry_reads (token first : string) (others : list string)
  (pitches : list Pitch) :
  result (get_chord_from_string token) = Ok (Some (first :: others)) ->
  reads Note (map (chord_note_text octave) (first :: others)) pitches ->
  chord_entry Note octave duration token
  = Ok [ChordOf (map (fun pitch => mkNote pitch duration) pitches)].
Proof.
  intros Hbuilt Hreads. unfold chord_entry. rewrite Hbuilt.
  unfold create_music21_chord.
  rewrite (append_m21_notes_reads _ _ [] Hreads). reflexivity.
Qed.

Lemma append_notes_reads (bass_notes : list string) :
  forall (pitches : list Pitch) (acc : m21_stream D Pitch),
    reads Note (map (bass_note_text octave) bass_notes) pitches ->
    append_notes Note bass_notes octave duration acc
    = (Ok (acc ++ map (fun pitch => NoteOf (mkNote pitch duration)) pitches), []).
Proof.
  induction bass_notes as [|name rest IH]; intros pitches acc Hreads;
    inversion Hreads as [|text pitch texts pitches' Hnote Hrest]; subst.
  - simpl. now rewrite app_nil_r.
  - cbn [append_notes]. unfold create_music21_note.
    fold (bass_note_text octave name).
    rewrite Hnote. unfold quiet, bind, ret.
    rewrite (IH pitches' _ Hrest). cbn [map app].
    now rewrite <- app_assoc.
Qed.



End Assembly.

Lemma result_bind {A B : Type} (m : M A) (f : A -> M B) :
  result (bind m f)
  = match result m with
    | Ok a => result (f a)
    | Raise e => Raise e
    | Diverge => Diverge
    end.
Proof.
  destruct m as [[a | e |] out]; unfold bind; cbn [result fst];
    [now destruct (f a) | reflexivity | reflexivity].
Qed.

(** Writing ends in a saved file or in an exception, never in the length
    warning. *)
Lemma write_or_rename_not_warning (D Pitch : Type) (os : os_env D Pitch)
  (what : written D Pitch) (filepath : string) :
  is_warning_result (result (write_or_rename os what filepath)) <> Some true.
Proof.
  unfold write_or_rename, try_except_PermissionError, quiet, bind, ret.
  destruct (write_midi os what filepath) as [[] | [] |]; cbn; try discriminate.
  destruct (write_midi os what _) as [[] | e |]; cbn; discriminate.
Qed.

(** [export_to_midi] with a bass line: the path, the chords, the bass
    notes, the comparison of the lengths, the writing. *)
Lemma export_with_bass_result (D Pitch : Type) (Note : string -> res Pitch)
  (os : os_env D Pitch) (chord_progression : names_arg) (filename : string)
  (bass_line : names_arg) (chord_octave bass_octave : Z) (duration : D) :
  given (Some bass_line) = true ->
  result (export_to_midi Note os chord_progression filename (Some bass_line)
                         chord_octave bass_octave duration)
  = match result (get_output_path os filename) with
    | Ok filepath =>
        match result (create_chord_progression Note chord_progression
                                               chord_octave duration) with
        | Ok chord_stream =>
            match result (create_bass_line Note bass_line bass_octave duration) with
            | Ok bass_stream =>
                if Nat.eqb (length chord_stream) (length bass_stream) then
                  result (write_or_rename os
                            (Score (mkPart Piano chord_stream)
                                   (mkPart AcousticBass bass_stream))
                            filepath)
                else Ok (LengthWarning (length chord_stream) (length bass_stream))
            | Raise e => Raise e
            | Diverge => Diverge
            end
        | Raise e => Raise e
        | Diverge => Diverge
        end
    | Raise e => Raise e
    | Diverge => Diverge
    end.
Proof.
  intros Hgiven. unfold export_to_midi. rewrite result_bind.
  destruct (result (get_output_path os filename)) as [filepath | e |];
    [|reflexivity|reflexivity].
  rewrite Hgiven, result_bind.
  destruct (result (create_chord_progression Note chord_progression
                                             chord_octave duration))
    as [chord_stream | e |]; [|reflexivity|reflexivity].
  rewrite result_bind.
  destruct (result (create_bass_line Note bass_line bass_octave duration))
    as [bass_stream | e |]; [|reflexivity|reflexivity].
  now destruct (Nat.eqb (length chord_stream) (length bass_stream)).
Qed.



(** C1, as the code has it: with a bass line given, the length warning is
    returned exactly when the output directory can be made, the library
    reads every note of the chords and of the bass line, and the number of
    texts of the progression that build a chord differs from the number of
    bass texts.  An exception of the library or of the file system goes to
    the caller, with no warning. *)
Theorem length_warning_iff (D Pitch : Type) (Note : string -> res Pitch)
  (os : os_env D Pitch) (chord_progression : names_arg) (filename : string)
  (bass_line : names_arg) (chord_octave bass_octave : Z) (duration : D) :
  given (Some bass_line) = true ->
  (is_warning_result
     (result (export_to_midi Note os chord_progression filename (Some bass_line)
                             chord_octave bass_octave duration)) = Some true
   <->
   (exists filepath, result (get_output_path os filename) = Ok filepath) /\
   (exists chords,
      result (create_chord_progression Note chord_progression
                                       chord_octave duration) = Ok chords) /\
   (exists bass_notes,
      result (create_bass_line Note bass_line bass_octave duration)
      = Ok bass_notes) /\
   length (filter builds (names_of chord_progression))
   <> length (names_of bass_line)).
Proof.
  intros Hgiven. rewrite (export_with_bass_result _ _ _ _ _ _ _ _ _ _ Hgiven).
  destruct (result (get_output_path os filename)) as [filepath | e |];
    [| split; [discriminate | intros ((? & H) & _); discriminate]
     | split; [discriminate | intros ((? & H) & _); discriminate]].
  destruct (result (create_chord_progression Note chord_progression
                                             chord_octave duration))
    as [chords | e |] eqn:Hchords;
    [| split; [discriminate | intros (_ & (? & H) & _); discriminate]
     | split; [discriminate | intros (_ & (? & H) & _); discriminate]].
  destruct (result (create_bass_line Note bass_line bass_octave duration))
    as [bass_notes | e |] eqn:Hbass;
    [| split; [discriminate | intros (_ & _ & (? & H) & _); discriminate]
     | split; [discriminate | intros (_ & _ & (? & H) & _); discriminate]].
  rewrite create_chord_progression_entries in Hchords.
  rewrite <- (entries_length Note chord_octave duration _ _ Hchords).
  rewrite <- (create_bass_line_length Note bass_octave duration _ _ Hbass).
  destruct (Nat.eqb (length chords) (length bass_notes)) eqn:Hcmp.
  - apply Nat.eqb_eq in Hcmp. split.
    + intros H. now apply write_or_rename_not_warning in H.
    + intros (_ & _ & _ & Hne). congruence.
  - apply Nat.eqb_neq in Hcmp. split; [|reflexivity].
    intros _. repeat split; eauto.
Qed.

Lemma length_warning_iff_witness :
  is_warning_result
    (result (export_to_midi reads_every_name (sample_os Z) (Text "C, F")
                            "out.mid" (Some (Text "C")) 4 2 1%Z)) = Some true
  <->
  (exists filepath,
     result (get_output_path (sample_os Z) "out.mid") = Ok filepath) /\
  (exists chords,
     result (create_chord_progression reads_every_name (Text "C, F") 4 1%Z)
     = Ok chords) /\
  (exists bass_notes,
     result (create_bass_line reads_every_name (Text "C") 2 1%Z)
     = Ok bass_notes) /\
  length (filter builds (names_of (Text "C, F"))) <> length (names_of (Text "C")).
Proof.
  apply (length_warning_iff Z string reads_every_name (sample_os Z)
           (Text "C, F") "out.mid" (Text "C") 4 2 1%Z).
  reflexivity.
Defined.

(** C1 as stated fails in both directions: one chord text and one bass text
    give the warning when the chord text builds no chord, and two chord
    texts with one bass text give a score when one of them builds none. *)
Lemma length_warning_counts_built_chords :
  (length (names_of (Text "X")) = length (names_of (Text "C")) /\
   result (export_to_midi reads_every_name (sample_os Z) (Text "X") "out.mid"
                          (Some (Text "C")) 4 2 1%Z)
   = Ok (LengthWarning 0 1)) /\
  (length (names_of (Text "X, C")) <> length (names_of (Text "C")) /\
   is_warning_result
     (result (export_to_midi reads_every_name (sample_os Z) (Text "X, C")
                             "out.mid" (Some (Text "C")) 4 2 1%Z))
   = Some false).
Proof.
  repeat split; try (vm_compute; reflexivity).
  vm_compute. discriminate.
Qed.

(** C5: the progression and the bass line of the example give six chords
    paired with six bass notes, in the order of the text; each chord written
    with a slash starts on the pitch class of the bass asked for; and no
    length warning is returned.  The notes are made by the library and the
    file is written by the machine: the library is asked to read the
    thirteen names of the example, the output directory to be there and the
    file to be free. *)
Theorem example_progression (D Pitch : Type) (Note : string -> res Pitch)
  (os : os_env D Pitch) (duration : D) (filename filepath : string) :
  let progression := "F#m/C#, C#m, D, Fdim7/D, A/C#, Bbdim7" in
  let bass_line := "C#, C#, D, D, C#, Bb" in
  Forall (fun text => exists pitch, Note text = Ok pitch)
         ["Db4"; "Gb4"; "A4"; "E4"; "Ab4"; "D4"; "F4"; "B4"; "Bb4"; "G4";
          "Db2"; "D2"; "Bb2"] ->
  result (get_output_path os filename) = Ok filepath ->
  (forall what, write_midi os what filepath = Ok tt) ->
  exists chord_part bass_part,
    result (export_to_midi Note os (Text progression) filename
                           (Some (Text bass_line)) 4 2 duration)
    = Ok (Saved (Score chord_part bass_part) filepath) /\
    is_warning (Saved (Score chord_part bass_part) filepath) = false /\
    length (pairs (Saved (Score chord_part bass_part) filepath)) = 6 /\
    map (fun token => result (get_chord_from_string token))
        (names_of (Text progression))
    = [Ok (Some ["C#"; "F#"; "A"]); Ok (Some ["C#"; "E"; "G#"]);
       Ok (Some ["D"; "F#"; "A"]); Ok (Some ["D"; "F"; "G#"; "B"]);
       Ok (Some ["C#"; "E"; "A"]); Ok (Some ["Bb"; "C#"; "E"; "G"])] /\
    Forall2 (reads_as Note duration)
            [["Db4"; "Gb4"; "A4"]; ["Db4"; "E4"; "Ab4"]; ["D4"; "Gb4"; "A4"];
             ["D4"; "F4"; "Ab4"; "B4"]; ["Db4"; "E4"; "A4"];
             ["Bb4"; "Db4"; "E4"; "G4"]]
            (part_elements chord_part) /\
    Forall2 (reads_as Note duration)
            [["Db2"]; ["Db2"]; ["D2"]; ["D2"]; ["Db2"]; ["Bb2"]]
            (part_elements bass_part) /\
    Forall2 starts_on_requested_bass
            (names_of (Text progression))
            [["C#"; "F#"; "A"]; ["C#"; "E"; "G#"]; ["D"; "F#"; "A"];
             ["D"; "F"; "G#"; "B"]; ["C#"; "E"; "A"]; ["Bb"; "C#"; "E"; "G"]].
Proof.
  intros progression bass_line Hnotes Hpath Hwrite.
  repeat match type of Hnotes with
         | Forall _ (_ :: _) =>
             let pitch := fresh "pitch" in
             let H := fresh "Hread" in
             apply Forall_cons_iff in Hnotes;
             destruct Hnotes as ((pitch & H) & Hnotes)
         end.
  rename pitch into pDb4, pitch0 into pGb4, pitch1 into pA4, pitch2 into pE4,
    pitch3 into pAb4, pitch4 into pD4, pitch5 into pF4, pitch6 into pB4,
    pitch7 into pBb4, pitch8 into pG4, pitch9 into pDb2, pitch10 into pD2,
    pitch11 into pBb2.
  pose (chord_of := fun pitches : list Pitch =>
                      ChordOf (map (fun pitch => mkNote pitch duration) pitches)).
  pose (chords :=
          map chord_of
              [[pDb4; pGb4; pA4]; [pDb4; pE4; pAb4]; [pD4; pGb4; pA4];
               [pD4; pF4; pAb4; pB4]; [pDb4; pE4; pA4];
               [pBb4; pDb4; pE4; pG4]]).
  pose (bass_notes :=
          map (fun pitch => NoteOf (mkNote pitch duration))
              [pDb2; pDb2; pD2; pD2; pDb2; pBb2]).
  assert (Hchords : result (create_chord_progression Note (Text progression) 4
                                                     duration) = Ok chords).
  { rewrite create_chord_progression_entries.
    replace (names_of (Text progression))
      with ["F#m/C#"; "C#m"; "D"; "Fdim7/D"; "A/C#"; "Bbdim7"]
      by (vm_compute; reflexivity).
    cbn [entries].
    rewrite (chord_entry_reads Note 4 duration "F#m/C#" "C#" ["F#"; "A"]
               [pDb4; pGb4; pA4])
      by (try (vm_compute; reflexivity); repeat constructor; assumption).
    rewrite (chord_entry_reads Note 4 duration "C#m" "C#" ["E"; "G#"]
               [pDb4; pE4; pAb4])
      by (try (vm_compute; reflexivity); repeat constructor; assumption).
    rewrite (chord_entry_reads Note 4 duration "D" "D" ["F#"; "A"]
               [pD4; pGb4; pA4])
      by (try (vm_compute; reflexivity); repeat constructor; assumption).
    rewrite (chord_entry_reads Note 4 duration "Fdim7/D" "D" ["F"; "G#"; "B"]
               [pD4; pF4; pAb4; pB4])
      by (try (vm_compute; reflexivity); repeat constructor; assumption).
    rewrite (chord_entry_reads Note 4 duration "A/C#" "C#" ["E"; "A"]
               [pDb4; pE4; pA4])
      by (try (vm_compute; reflexivity); repeat constructor; assumption).
    rewrite (chord_entry_reads Note 4 duration "Bbdim7" "Bb" ["C#"; "E"; "G"]
               [pBb4; pDb4; pE4; pG4])
      by (try (vm_compute; reflexivity); repeat constructor; assumption).
    reflexivity. }
  assert (Hbass : result (create_bass_line Note (Text bass_line) 2 duration)
                  = Ok bass_notes).
  { unfold create_bass_line.
    replace (names_of (Text bass_line))
      with ["C#"; "C#"; "D"; "D"; "C#"; "Bb"] by (vm_compute; reflexivity).
    rewrite (append_notes_reads Note 2 duration _
               [pDb2; pDb2; pD2; pD2; pDb2; pBb2] [])
      by (repeat constructor; assumption).
    reflexivity. }
  exists (mkPart Piano chords), (mkPart AcousticBass bass_notes).
  split.
  { rewrite export_with_bass_result by reflexivity.
    rewrite Hpath, Hchords, Hbass. cbn [length chords bass_notes map Nat.eqb].
    unfold write_or_rename, try_except_PermissionError, quiet, bind, ret.
    rewrite Hwrite. reflexivity. }
  split; [reflexivity|]. split; [reflexivity|].
  split; [vm_compute; reflexivity|].
  split.
  { cbn [part_elements chords map chord_of].
    repeat constructor; cbn [map note_pitch quarterLength]; assumption. }
  split.
  { cbn [part_elements bass_notes map].
    repeat constructor; cbn [map note_pitch quarterLength]; assumption. }
  replace (names_of (Text progression))
    with ["F#m/C#"; "C#m"; "D"; "Fdim7/D"; "A/C#"; "Bbdim7"]
    by (vm_compute; reflexivity).
  repeat (apply Forall2_cons || apply Forall2_nil);
    unfold starts_on_requested_bass; vm_compute; try exact I;
    eexists; eexists; eexists; repeat split.
Qed.

Lemma example_progression_witness :
  let progression := "F#m/C#, C#m, D, Fdim7/D, A/C#, Bbdim7" in
  let bass_line := "C#, C#, D, D, C#, Bb" in
  let filepath := "/music/output/meteor.mid" in
  exists chord_part bass_part,
    result (export_to_midi reads_every_name (sample_os Z) (Text progression)
                           "meteor.mid" (Some (Text bass_line)) 4 2 2%Z)
    = Ok (Saved (Score chord_part bass_part) filepath) /\
    is_warning (Saved (Score chord_part bass_part) filepath) = false /\
    length (pairs (Saved (Score chord_part bass_part) filepath)) = 6 /\
    map (fun token => result (get_chord_from_string token))
        (names_of (Text progression))
    = [Ok (Some ["C#"; "F#"; "A"]); Ok (Some ["C#"; "E"; "G#"]);
       Ok (Some ["D"; "F#"; "A"]); Ok (Some ["D"; "F"; "G#"; "B"]);
       Ok (Some ["C#"; "E"; "A"]); Ok (Some ["Bb"; "C#"; "E"; "G"])] /\
    Forall2 (reads_as reads_every_name 2%Z)
            [["Db4"; "Gb4"; "A4"]; ["Db4"; "E4"; "Ab4"]; ["D4"; "Gb4"; "A4"];
             ["D4"; "F4"; "Ab4"; "B4"]; ["Db4"; "E4"; "A4"];
             ["Bb4"; "Db4"; "E4"; "G4"]]
            (part_elements chord_part) /\
    Forall2 (reads_as reads_every_name 2%Z)
            [["Db2"]; ["Db2"]; ["D2"]; ["D2"]; ["Db2"]; ["Bb2"]]
            (part_elements bass_part) /\
    Forall2 starts_on_requested_bass
            (names_of (Text progression))
            [["C#"; "F#"; "A"]; ["C#"; "E"; "G#"]; ["D"; "F#"; "A"];
             ["D"; "F"; "G#"; "B"]; ["C#"; "E"; "A"]; ["Bb"; "C#"; "E"; "G"]].
Proof.
  apply (example_progression Z string reads_every_name (sample_os Z) 2%Z
           "meteor.mid" "/music/output/meteor.mid").
  - repeat constructor; eexists; reflexivity.
  - vm_compute. reflexivity.
  - intros what. reflexivity.
Defined.

(* ================================================================== *)
(** * Further properties of the chord functions *)
(* ================================================================== *)

(** ** The chromatic table *)

Lemma mem_app (x : string) (l l' : list string) :
  mem x (l ++ l') = mem x l || mem x l'.
Proof. unfold mem. apply existsb_app. Qed.

(** [find_note] finds the first entry that has the note among its
    spellings, and nothing exactly when no entry has it. *)
Lemma find_note_spec (note : string) (options : list string) :
  forall start,
    match find_note note options start with
    | Some i =>
        (start <= i < start + Z.of_nat (length options))%Z /\
        exists names,
          nth_error options (Z.to_nat (i - start)) = Some names /\
          mem note (PyStr.split "/" names) = true
    | None => mem note (flat_map (PyStr.split "/") options) = false
    end.
Proof.
  induction options as [|names rest IH]; intros start; [reflexivity|].
  cbn [find_note flat_map]. rewrite mem_app.
  destruct (mem note (PyStr.split "/" names)) eqn:Hhere.
  - split; [simpl length; lia|].
    exists names. rewrite Z.sub_diag. now split.
  - specialize (IH (start + 1)%Z).
    destruct (find_note note rest (start + 1)) as [i|]; [|exact IH].
    destruct IH as (Hrange & names' & Hnth & Hmem).
    split; [simpl length; lia|].
    exists names'. split; [|assumption].
    replace (Z.to_nat (i - start)) with (S (Z.to_nat (i - (start + 1)))) by lia.
    exact Hnth.
Qed.

(** X1: an index returned by [get_note_index] lies in 0..11 and is the
    position of an entry of the table that has the note among its
    spellings. *)
Theorem get_note_index_sound (note : string) (i : Z) :
  result (get_note_index note) = Ok i ->
  (0 <= i < 12)%Z /\
  exists names,
    nth_error notes (Z.to_nat i) = Some names /\
    In note (PyStr.split "/" names).
Proof.
  unfold get_note_index. intros H.
  pose proof (find_note_spec note notes 0) as Hspec.
  destruct (find_note note notes 0) as [j|]; [|discriminate H].
  injection H as <-.
  destruct Hspec as (Hrange & names & Hnth & Hmem).
  split; [simpl in Hrange; lia|].
  exists names. rewrite Z.sub_0_r in Hnth. split; [assumption|].
  now apply mem_In.
Qed.

Lemma get_note_index_sound_witness :
  (0 <= 1 < 12)%Z /\
  exists names,
    nth_error notes (Z.to_nat 1) = Some names /\
    In "Db" (PyStr.split "/" names).
Proof.
  apply (get_note_index_sound "Db" 1). reflexivity.
Defined.

(** The two ways out of [get_note_index]. *)
Lemma get_note_index_cases (note : string) :
  if mem note spellings then
    exists i, get_note_index note = (Ok i, []) /\ (0 <= i < 12)%Z
  else
    get_note_index note
    = (Raise (ValueError ("Note " ++ note ++ " not found in notes list")), []).
Proof.
  unfold get_note_index, spellings.
  pose proof (find_note_spec note notes 0) as Hspec.
  destruct (find_note note notes 0) as [j|].
  - destruct Hspec as (Hrange & names & Hnth & Hmem).
    assert (Hin : mem note (flat_map (PyStr.split "/") notes) = true).
    { apply mem_In. apply in_flat_map. exists names. split.
      - eapply nth_error_In. exact Hnth.
      - now apply mem_In. }
    rewrite Hin. exists j. split; [reflexivity | simpl in Hrange; lia].
  - now rewrite Hspec.
Qed.

(** X2: [get_note_index] returns, printing nothing, for the seventeen
    spellings of the table, and raises [ValueError] naming the note for
    every other text. *)
Theorem get_note_index_known (note : string) :
  if mem note spellings then
    exists i, get_note_index note = (Ok i, []) /\ (0 <= i < 12)%Z
  else
    get_note_index note
    = (Raise (ValueError ("Note " ++ note ++ " not found in notes list")), []).
Proof. exact (get_note_index_cases note). Qed.

(** One semitone down from a note of the table: the index before, modulo
    12, under the first spelling of its entry. *)
Lemma lower_note_index (note : string) (i : Z) :
  find_note note notes 0 = Some i ->
  exists previous,
    lower_note_by_semitone note = (Ok previous, []) /\
    find_note previous notes 0 = Some ((i - 1) mod 12)%Z /\
    PyStr.contains "b" previous = false.
Proof.
  intros Hfind. pose proof (find_note_range note i Hfind) as Hrange.
  unfold lower_note_by_semitone, get_note_index. rewrite Hfind.
  simpl in Hrange.
  repeat (destruct Hrange as [<- | Hrange];
          [eexists; split; [reflexivity | split; reflexivity]|]).
  contradiction.
Qed.

Lemma raise_note_sharp (note : string) (i : Z) :
  find_note note notes 0 = Some i ->
  exists next,
    raise_note_by_semitone note = (Ok next, []) /\
    find_note next notes 0 = Some ((i + 1) mod 12)%Z /\
    PyStr.contains "b" next = false.
Proof.
  intros Hfind. pose proof (find_note_range note i Hfind) as Hrange.
  unfold raise_note_by_semitone, get_note_index. rewrite Hfind.
  simpl in Hrange.
  repeat (destruct Hrange as [<- | Hrange];
          [eexists; split; [reflexivity | split; reflexivity]|]).
  contradiction.
Qed.

Lemma get_note_index_find (note : string) (i : Z) :
  result (get_note_index note) = Ok i <-> find_note note notes 0 = Some i.
Proof.
  unfold get_note_index.
  destruct (find_note note notes 0); simpl; split; congruence.
Qed.

(** X3: for a note of the table at index [i], lowering gives a note at index
    [(i - 1) mod 12] and raising one at [(i + 1) mod 12]; nothing is
    printed, and the note returned is spelled without a flat. *)
Theorem semitone_steps (note : string) (i : Z) :
  result (get_note_index note) = Ok i ->
  (exists previous,
     lower_note_by_semitone note = (Ok previous, []) /\
     result (get_note_index previous) = Ok ((i - 1) mod 12)%Z /\
     PyStr.contains "b" previous = false) /\
  (exists next,
     raise_note_by_semitone note = (Ok next, []) /\
     result (get_note_index next) = Ok ((i + 1) mod 12)%Z /\
     PyStr.contains "b" next = false).
Proof.
  intros H. apply get_note_index_find in H. split.
  - destruct (lower_note_index note i H) as (previous & Heq & Hidx & Hflat).
    exists previous. repeat split; [assumption | | assumption].
    now apply get_note_index_find.
  - destruct (raise_note_sharp note i H) as (next & Heq & Hidx & Hflat).
    exists next. repeat split; [assumption | | assumption].
    now apply get_note_index_find.
Qed.

Lemma semitone_steps_witness :
  (exists previous,
     lower_note_by_semitone "C" = (Ok previous, []) /\
     result (get_note_index previous) = Ok ((0 - 1) mod 12)%Z /\
     PyStr.contains "b" previous = false) /\
  (exists next,
     raise_note_by_semitone "C" = (Ok next, []) /\
     result (get_note_index next) = Ok ((0 + 1) mod 12)%Z /\
     PyStr.contains "b" next = false).
Proof.
  apply (semitone_steps "C" 0). reflexivity.
Defined.

(** X4: for a text that is not in the table, lowering and raising both hand
    the text back as it is and print the error of the lookup. *)
Theorem semitone_unknown_note (note : string) :
  mem note spellings = false ->
  let e := ValueError ("Note " ++ note ++ " not found in notes list") in
  lower_note_by_semitone note = (Ok note, [ErrorLowering note e]) /\
  raise_note_by_semitone note = (Ok note, [ErrorRaising note e]).
Proof.
  intros Hunknown e.
  pose proof (get_note_index_cases note) as Hidx. rewrite Hunknown in Hidx.
  unfold lower_note_by_semitone, raise_note_by_semitone.
  rewrite Hidx. split; reflexivity.
Qed.

Lemma semitone_unknown_note_witness :
  let e := ValueError ("Note " ++ "H" ++ " not found in notes list") in
  lower_note_by_semitone "H" = (Ok "H", [ErrorLowering "H" e]) /\
  raise_note_by_semitone "H" = (Ok "H", [ErrorRaising "H" e]).
Proof.
  apply (semitone_unknown_note "H"). reflexivity.
Defined.

(** X5: raising a note of the table and lowering the result, or lowering and
    then raising, comes back to the pitch class of the note. *)
Theorem raise_lower_round_trip (note : string) (i : Z) :
  result (get_note_index note) = Ok i ->
  (exists up back,
     raise_note_by_semitone note = (Ok up, []) /\
     lower_note_by_semitone up = (Ok back, []) /\
     result (get_note_index back) = Ok i) /\
  (exists down back,
     lower_note_by_semitone note = (Ok down, []) /\
     raise_note_by_semitone down = (Ok back, []) /\
     result (get_note_index back) = Ok i).
Proof.
  intros H. apply get_note_index_find in H.
  pose proof (find_note_range note i H) as Hrange.
  assert (Hi : (0 <= i < 12)%Z) by (simpl in Hrange; lia).
  split.
  - destruct (raise_note_index note i H) as (up & Hup & Hupi).
    destruct (lower_note_index up _ Hupi) as (back & Hback & Hbacki & _).
    exists up, back. repeat split; [assumption | assumption |].
    apply get_note_index_find. rewrite Hbacki. f_equal.
    rewrite Zminus_mod_idemp_l. replace (i + 1 - 1)%Z with i by lia.
    now apply Z.mod_small.
  - destruct (lower_note_index note i H) as (down & Hdown & Hdowni & _).
    destruct (raise_note_index down _ Hdowni) as (back & Hback & Hbacki).
    exists down, back. repeat split; [assumption | assumption |].
    apply get_note_index_find. rewrite Hbacki. f_equal.
    rewrite Zplus_mod_idemp_l. replace (i - 1 + 1)%Z with i by lia.
    now apply Z.mod_small.
Qed.

Lemma raise_lower_round_trip_witness :
  (exists up back,
     raise_note_by_semitone "B" = (Ok up, []) /\
     lower_note_by_semitone up = (Ok back, []) /\
     result (get_note_index back) = Ok 11%Z) /\
  (exists down back,
     lower_note_by_semitone "B" = (Ok down, []) /\
     raise_note_by_semitone down = (Ok back, []) /\
     result (get_note_index back) = Ok 11%Z).
Proof.
  apply (raise_lower_round_trip "B" 11). reflexivity.
Defined.

(** X6: walking up [interval] semitones from a note of the table reaches the
    index of the note plus [interval], modulo 12, and prints nothing; twelve
    semitones lead back to the pitch class of the note. *)
Theorem walk_up_octave (note : string) (i : Z) (interval : nat) :
  result (get_note_index note) = Ok i ->
  (exists reached,
     walk_up interval note = (Ok reached, []) /\
     result (get_note_index reached) = Ok ((i + Z.of_nat interval) mod 12)%Z) /\
  (exists reached,
     walk_up 12 note = (Ok reached, []) /\
     result (get_note_index reached) = Ok i).
Proof.
  intros H. apply get_note_index_find in H.
  pose proof (find_note_range note i H) as Hrange.
  assert (Hi : (0 <= i < 12)%Z) by (simpl in Hrange; lia).
  split.
  - destruct (walk_up_index interval note i H) as (reached & Hwalk & Hidx).
    exists reached. split; [assumption | now apply get_note_index_find].
  - destruct (walk_up_index 12 note i H) as (reached & Hwalk & Hidx).
    exists reached. split; [assumption|].
    apply get_note_index_find. rewrite Hidx. f_equal.
    change (Z.of_nat 12) with (1 * 12)%Z.
    rewrite Z.mod_add by lia. now apply Z.mod_small.
Qed.

Lemma walk_up_octave_witness :
  (exists reached,
     walk_up 9 "F" = (Ok reached, []) /\
     result (get_note_index reached) = Ok ((5 + Z.of_nat 9) mod 12)%Z) /\
  (exists reached,
     walk_up 12 "F" = (Ok reached, []) /\
     result (get_note_index reached) = Ok 5%Z).
Proof.
  apply (walk_up_octave "F" 5 9). reflexivity.
Defined.

(** ** Minor, diminished and seventh chords *)

(** Lowering and raising return for every text. *)
Lemma lower_note_returns (note : string) :
  exists lowered out, lower_note_by_semitone note = (Ok lowered, out).
Proof.
  destruct (find_note note notes 0) as [i|] eqn:Hfind.
  - destruct (lower_note_index note i Hfind) as (previous & Heq & _).
    eauto.
  - unfold lower_note_by_semitone, get_note_index. rewrite Hfind.
    eexists. eexists. reflexivity.
Qed.

Lemma raise_note_returns (note : string) :
  exists raised out, raise_note_by_semitone note = (Ok raised, out).
Proof.
  destruct (find_note note notes 0) as [i|] eqn:Hfind.
  - destruct (raise_note_index note i Hfind) as (next & Heq & _).
    eauto.
  - unfold raise_note_by_semitone, get_note_index. rewrite Hfind.
    eexists. eexists. reflexivity.
Qed.

Lemma walk_up_returns (interval : nat) :
  forall note, exists reached out, walk_up interval note = (Ok reached, out).
Proof.
  induction interval as [|k IH]; intros note.
  - exists note, []. reflexivity.
  - cbn [walk_up].
    destruct (raise_note_returns note) as (raised & out & ->).
    destruct (IH raised) as (reached & out' & Hrest).
    unfold bind. rewrite Hrest. eauto.
Qed.

(** [make_minor_chord] on a chord of two notes or more: the second note
    gives way to what lowering it returns, the others stay. *)
Lemma make_minor_chord_eq (a b : string) (rest : list string)
  (lowered : string) (out : list Diag) :
  lower_note_by_semitone b = (Ok lowered, out) ->
  make_minor_chord (a :: b :: rest) = (Ok (a :: lowered :: rest), out).
Proof.
  intros Hlower. unfold make_minor_chord.
  change (py_index (a :: b :: rest) 1) with (@ret string b).
  unfold bind at 1. unfold ret at 1. rewrite Hlower.
  unfold bind. cbv beta iota.
  change (py_store (a :: b :: rest) 1 lowered)
    with (@ret (list string) (a :: lowered :: rest)).
  unfold ret. cbn [app]. now rewrite app_nil_r.
Qed.

Lemma make_diminished_chord_eq (a b c : string) (rest : list string)
  (third fifth : string) (out out' : list Diag) :
  lower_note_by_semitone b = (Ok third, out) ->
  lower_note_by_semitone c = (Ok fifth, out') ->
  make_diminished_chord (a :: b :: c :: rest)
  = (Ok (a :: third :: fifth :: rest), out ++ out').
Proof.
  intros Hthird Hfifth. unfold make_diminished_chord.
  change (py_index (a :: b :: c :: rest) 1) with (@ret string b).
  unfold bind at 1. unfold ret at 1. rewrite Hthird.
  unfold bind at 1.
  change (py_store (a :: b :: c :: rest) 1 third)
    with (@ret (list string) (a :: third :: c :: rest)).
  unfold bind at 1. unfold ret at 1.
  change (py_index (a :: third :: c :: rest) 2) with (@ret string c).
  unfold bind at 1. unfold ret at 1. rewrite Hfifth.
  unfold bind. cbv beta iota.
  change (py_store (a :: third :: c :: rest) 2 fifth)
    with (@ret (list string) (a :: third :: fifth :: rest)).
  unfold ret. cbn [app]. now rewrite !app_nil_r.
Qed.

(** X7: on a chord whose second note is in the table at index [j],
    [make_minor_chord] replaces that note by one at index [(j - 1) mod 12]
    and leaves every other note, and the number of notes, as they were. *)
Theorem make_minor_lowers_third (a b : string) (rest : list string) (j : Z) :
  result (get_note_index b) = Ok j ->
  exists lowered,
    make_minor_chord (a :: b :: rest) = (Ok (a :: lowered :: rest), []) /\
    result (get_note_index lowered) = Ok ((j - 1) mod 12)%Z.
Proof.
  intros H. apply get_note_index_find in H.
  destruct (lower_note_index b j H) as (lowered & Heq & Hidx & _).
  exists lowered. split.
  - now apply make_minor_chord_eq.
  - now apply get_note_index_find.
Qed.

Lemma make_minor_lowers_third_witness :
  exists lowered,
    make_minor_chord ("C" :: "E" :: ["G"]) = (Ok ("C" :: lowered :: ["G"]), []) /\
    result (get_note_index lowered) = Ok ((4 - 1) mod 12)%Z.
Proof.
  apply (make_minor_lowers_third "C" "E" ["G"] 4). reflexivity.
Defined.

(** X8: on a chord whose second and third notes are in the table at indices
    [j] and [k], [make_diminished_chord] replaces them by notes at
    [(j - 1) mod 12] and [(k - 1) mod 12] and leaves every other note as it
    was. *)
Theorem make_diminished_lowers_third_and_fifth (a b c : string)
  (rest : list string) (j k : Z) :
  result (get_note_index b) = Ok j ->
  result (get_note_index c) = Ok k ->
  exists third fifth,
    make_diminished_chord (a :: b :: c :: rest)
    = (Ok (a :: third :: fifth :: rest), []) /\
    result (get_note_index third) = Ok ((j - 1) mod 12)%Z /\
    result (get_note_index fifth) = Ok ((k - 1) mod 12)%Z.
Proof.
  intros Hb Hc. apply get_note_index_find in Hb, Hc.
  destruct (lower_note_index b j Hb) as (third & Hthird & Hj & _).
  destruct (lower_note_index c k Hc) as (fifth & Hfifth & Hk & _).
  exists third, fifth. split; [|split].
  - now rewrite (make_diminished_chord_eq a b c rest third fifth [] []).
  - now apply get_note_index_find.
  - now apply get_note_index_find.
Qed.

Lemma make_diminished_lowers_third_and_fifth_witness :
  exists third fifth,
    make_diminished_chord ("F" :: "A" :: "C" :: [])
    = (Ok ("F" :: third :: fifth :: []), []) /\
    result (get_note_index third) = Ok ((9 - 1) mod 12)%Z /\
    result (get_note_index fifth) = Ok ((0 - 1) mod 12)%Z.
Proof.
  apply (make_diminished_lowers_third_and_fifth "F" "A" "C" [] 9 0);
    reflexivity.
Defined.

(** X9: [make_minor_chord] raises [IndexError] exactly on a chord of fewer
    than two notes, and [make_diminished_chord] exactly on one of fewer than
    three; on any longer chord, whatever its notes, they return a chord of
    the same length with the same first note. *)
Theorem short_chords_raise_index_error (chord_notes : list string) :
  (if Nat.ltb (length chord_notes) 2
   then result (make_minor_chord chord_notes) = Raise IndexError
   else exists minor,
       result (make_minor_chord chord_notes) = Ok minor /\
       length minor = length chord_notes /\
       hd_error minor = hd_error chord_notes) /\
  (if Nat.ltb (length chord_notes) 3
   then result (make_diminished_chord chord_notes) = Raise IndexError
   else exists dim,
       result (make_diminished_chord chord_notes) = Ok dim /\
       length dim = length chord_notes /\
       hd_error dim = hd_error chord_notes).
Proof.
  destruct chord_notes as [|a [|b [|c rest]]]; try (split; reflexivity).
  - (* two notes: the third is lowered, the fifth is missing *)
    destruct (lower_note_returns b) as (lowered & out & Hlower).
    split.
    + exists [a; lowered].
      rewrite (make_minor_chord_eq a b [] lowered out Hlower). now repeat split.
    + cbn [length Nat.ltb Nat.leb]. unfold make_diminished_chord.
      change (py_index [a; b] 1) with (@ret string b).
      unfold bind at 1. unfold ret at 1. rewrite Hlower. reflexivity.
  - destruct (lower_note_returns b) as (third & out & Hthird).
    destruct (lower_note_returns c) as (fifth & out' & Hfifth).
    split.
    + exists (a :: third :: c :: rest).
      rewrite (make_minor_chord_eq a b (c :: rest) third out Hthird).
      now repeat split.
    + exists (a :: third :: fifth :: rest).
      rewrite (make_diminished_chord_eq a b c rest third fifth out out'
                 Hthird Hfifth).
      now repeat split.
Qed.

(** X10: [make_seventh_chord] never raises: it returns the chord as it was
    or the chord with one note behind it.  For a kind that is not in its
    table it returns the chord as it was and prints that the kind is
    unknown, and for the empty chord it returns the empty chord and prints
    the problem. *)
Theorem make_seventh_chord_returns (chord_notes : list string) (chord_type : string) :
  (exists sevenths out,
     make_seventh_chord chord_notes chord_type = (Ok sevenths, out) /\
     (sevenths = chord_notes \/ exists added, sevenths = chord_notes ++ [added])) /\
  (dict_get seventh_intervals chord_type = None ->
   make_seventh_chord chord_notes chord_type
   = (Ok chord_notes,
      match chord_notes with
      | [] => [ProblemSeventh IndexError]
      | _ :: _ => [UnknownSeventh chord_type]
      end)).
Proof.
  destruct chord_notes as [|first rest].
  { split; [|intros _; reflexivity].
    exists [], [ProblemSeventh IndexError]. split; [reflexivity | now left]. }
  unfold make_seventh_chord.
  change (py_index (first :: rest) 0) with (@ret string first).
  unfold bind at 1. unfold ret at 1.
  destruct (dict_get seventh_intervals chord_type) as [[|k]|].
  - split; [|discriminate].
    eexists. eexists. split; [reflexivity | now left].
  - split; [|discriminate].
    destruct (walk_up_returns (S k) first) as (reached & out & Hwalk).
    rewrite Hwalk. eexists. eexists. split; [reflexivity|].
    right. eexists. reflexivity.
  - split; [|intros _; reflexivity].
    eexists. eexists. split; [reflexivity | now left].
Qed.

(** ** More on inversion *)

Lemma mem_Permutation (x : string) (l l' : list string) :
  Permutation l l' -> mem x l = mem x l'.
Proof.
  intros Hperm.
  destruct (mem x l) eqn:Hl; symmetry.
  - apply mem_In. apply (Permutation_in _ Hperm). now apply mem_In.
  - apply mem_not_In. apply mem_not_In in Hl. intros Hin. apply Hl.
    apply (Permutation_in _ (Permutation_sym Hperm) Hin).
Qed.

Lemma rotate_until_head (fuel : nat) (first : string) (rest : list string)
  (count : nat) :
  rotate_until fuel (first :: rest) first count = Ok (first :: rest, count).
Proof. destruct fuel; simpl; now rewrite String.eqb_refl. Qed.

(** X11: whatever the chord and the bass note, [inversion_by_bass_note]
    returns, and what it returns is the chord rotated to the left: the same
    notes, as many times each, and as many of them. *)
Theorem inversion_always_rotation (chord_notes : list string) (bass_note : string) :
  exists k inverted out,
    inversion_by_bass_note chord_notes bass_note = (Ok inverted, out) /\
    inverted = rotate_left k chord_notes /\
    Permutation chord_notes inverted /\
    length inverted = length chord_notes.
Proof.
  assert (Hzero : rotate_left 0 chord_notes = chord_notes).
  { unfold rotate_left. simpl. apply app_nil_r. }
  destruct (inversion_trace_cases (length chord_notes) chord_notes bass_note)
    as [(_ & Heq) | [(_ & _ & _ & Heq) | (_ & target & k & rest & _ & _ & Heq & _ & Hrot)]];
    [lia | | |];
    rewrite (inversion_by_bass_note_trace _ _ _ _ Heq); simpl.
  - exists 0, chord_notes. eexists. now repeat split.
  - exists 0, chord_notes. eexists. now repeat split.
  - exists k, (target :: rest). eexists.
    split; [reflexivity|]. split; [assumption|].
    assert (Hperm : Permutation chord_notes (target :: rest))
      by (rewrite Hrot; apply rotate_left_Permutation).
    split; [assumption|].
    symmetry. now apply Permutation_length.
Qed.

(** X12: inverting an inverted chord over the same bass note changes
    nothing. *)
Theorem inversion_idempotent (chord_notes : list string) (bass_note : string) :
  exists inverted,
    result (inversion_by_bass_note chord_notes bass_note) = Ok inverted /\
    result (inversion_by_bass_note inverted bass_note) = Ok inverted.
Proof.
  assert (Hagain : forall target rest k,
             mem target chord_notes = true ->
             target :: rest = rotate_left k chord_notes ->
             forall x, mem x (target :: rest) = mem x chord_notes).
  { intros target rest k _ Hrot x. symmetry. apply mem_Permutation.
    rewrite Hrot. apply rotate_left_Permutation. }
  assert (Hrun : forall target,
             mem target chord_notes = true ->
             exists k rest,
               rotate_until (length chord_notes) chord_notes target 0
               = Ok (target :: rest, k) /\
               target :: rest = rotate_left k chord_notes).
  { intros target Hmem.
    destruct (rotate_until_member chord_notes target (length chord_notes) Hmem)
      as (k & rest & Heq & _ & Hrot); [lia|].
    now exists k, rest. }
  unfold inversion_by_bass_note, inversion_trace, inversion_trace_fuel.
  destruct (String.eqb bass_note "") eqn:Hempty.
  { exists chord_notes. split; reflexivity. }
  destruct (dict_get enharmonic bass_note) as [other|] eqn:Henh.
  - destruct (mem other chord_notes) eqn:Hother.
    + destruct (Hrun other Hother) as (k & rest & Heq & Hrot).
      rewrite Heq. exists (other :: rest). split; [reflexivity|].
      rewrite (Hagain other rest k Hother Hrot other), Hother.
      now rewrite rotate_until_head.
    + destruct (mem bass_note chord_notes) eqn:Hbass.
      * destruct (Hrun bass_note Hbass) as (k & rest & Heq & Hrot).
        cbn [negb]. rewrite Heq. exists (bass_note :: rest).
        split; [reflexivity|].
        rewrite (Hagain bass_note rest k Hbass Hrot other), Hother.
        rewrite (Hagain bass_note rest k Hbass Hrot bass_note), Hbass.
        cbn [negb]. now rewrite rotate_until_head.
      * exists chord_notes. cbn [negb]. split; [reflexivity|].
        now rewrite Hother, Hbass.
  - destruct (mem bass_note chord_notes) eqn:Hbass.
    + destruct (Hrun bass_note Hbass) as (k & rest & Heq & Hrot).
      cbn [negb]. rewrite Heq. exists (bass_note :: rest).
      split; [reflexivity|].
      rewrite (Hagain bass_note rest k Hbass Hrot bass_note), Hbass.
      cbn [negb]. now rewrite rotate_until_head.
    + exists chord_notes. cbn [negb]. split; [reflexivity|].
      now rewrite Hbass.
Qed.

(** X13: the rotation loop on its own, looking for a note that is not in the
    list, never ends on a list with notes in it, whatever the number of runs
    it is allowed, and raises [IndexError] on the empty list: the test
    before the loop is what makes inversion return. *)
Theorem rotation_loop_without_member (notes_list : list string)
  (bass_note : string) (fuel count : nat) :
  ~ In bass_note notes_list ->
  rotate_until fuel notes_list bass_note count
  = match notes_list with
    | [] => Raise IndexError
    | _ :: _ => Diverge
    end.
Proof.
  intros Hnot. destruct notes_list as [|first rest].
  - now destruct fuel.
  - apply rotate_until_absent; [discriminate | now apply mem_not_In].
Qed.

Lemma rotation_loop_without_member_witness :
  rotate_until 100 ["C"; "E"; "G"] "F#" 0
  = match ["C"; "E"; "G"] with
    | [] => Raise IndexError
    | _ :: _ => Diverge
    end.
Proof.
  apply (rotation_loop_without_member ["C"; "E"; "G"] "F#" 100 0).
  simpl. intros [H | [H | [H | []]]]; discriminate H.
Defined.

(** ** Splitting and stripping *)

Lemma split_not_nil (sep : ascii) (s : string) : PyStr.split sep s <> [].
Proof.
  pose proof (split_length sep s) as H.
  destruct (PyStr.split sep s); [discriminate H | discriminate].
Qed.

Lemma join_cons (sep : ascii) (piece : string) (rest : list string) :
  rest <> [] ->
  join sep (piece :: rest) = (piece ++ String sep (join sep rest))%string.
Proof. destruct rest; [congruence | reflexivity]. Qed.

(** No piece of a split holds the separator. *)
Lemma split_pieces_clean (sep : ascii) (s : string) :
  Forall (fun piece => PyStr.count_char sep piece = 0) (PyStr.split sep s).
Proof.
  induction s as [|c r IH]; [repeat constructor|].
  cbn [PyStr.split]. destruct (Ascii.eqb c sep) eqn:E.
  - constructor; [reflexivity | assumption].
  - destruct (PyStr.split sep r) as [|w ws]; [repeat constructor; simpl; now rewrite E|].
    inversion IH as [|? ? Hw Hws]; subst.
    constructor; [|assumption]. simpl. now rewrite E, Hw.
Qed.

(** X14: splitting a text on a character and joining the pieces with that
    character gives the text back; there is one piece more than there are
    separators, and no piece holds a separator. *)
Theorem split_join_round_trip (sep : ascii) (s : string) :
  join sep (PyStr.split sep s) = s /\
  length (PyStr.split sep s) = S (PyStr.count_char sep s) /\
  Forall (fun piece => PyStr.count_char sep piece = 0) (PyStr.split sep s).
Proof.
  split; [|split; [apply split_length | apply split_pieces_clean]].
  induction s as [|c r IH]; [reflexivity|].
  cbn [PyStr.split]. destruct (Ascii.eqb c sep) eqn:E.
  - apply Ascii.eqb_eq in E. subst c.
    rewrite join_cons by apply split_not_nil. simpl. now rewrite IH.
  - pose proof (split_not_nil sep r) as Hne.
    destruct (PyStr.split sep r) as [|w ws]; [congruence|].
    destruct ws as [|w' ws'].
    + simpl in *. now rewrite IH.
    + rewrite join_cons by discriminate.
      rewrite join_cons in IH by discriminate.
      cbn [append]. now rewrite IH.
Qed.

Lemma lstrip_starts_clean (s : string) : starts_clean (PyStr.lstrip s).
Proof.
  induction s as [|c r IH]; simpl; [exact I|].
  destruct (PyStr.is_space c) eqn:E; [assumption | exact E].
Qed.

Lemma lstrip_clean (s : string) : starts_clean s -> PyStr.lstrip s = s.
Proof. destruct s as [|c r]; simpl; [reflexivity | now intros ->]. Qed.

Lemma rstrip_starts_clean (s : string) :
  starts_clean s -> starts_clean (PyStr.rstrip s).
Proof.
  destruct s as [|c r]; simpl; [trivial|]. intros Hc.
  destruct (PyStr.rstrip r); simpl; [now rewrite Hc | assumption].
Qed.

Lemma rstrip_cons (c : ascii) (r : string) :
  PyStr.rstrip (String c r)
  = match PyStr.rstrip r with
    | EmptyString =>
        if PyStr.is_space c then EmptyString else String c EmptyString
    | r' => String c r'
    end.
Proof. reflexivity. Qed.

Lemma rstrip_idempotent (s : string) :
  PyStr.rstrip (PyStr.rstrip s) = PyStr.rstrip s.
Proof.
  induction s as [|c r IH]; [reflexivity|].
  rewrite (rstrip_cons c r).
  destruct (PyStr.rstrip r) as [|c' r'] eqn:Hr.
  - destruct (PyStr.is_space c) eqn:E; [reflexivity|].
    simpl. now rewrite E.
  - now rewrite rstrip_cons, IH.
Qed.

Lemma strip_idempotent (s : string) :
  PyStr.strip (PyStr.strip s) = PyStr.strip s.
Proof.
  unfold PyStr.strip.
  rewrite (lstrip_clean (PyStr.rstrip (PyStr.lstrip s))).
  - apply rstrip_idempotent.
  - apply rstrip_starts_clean, lstrip_starts_clean.
Qed.

Lemma count_char_lstrip (c : ascii) (s : string) :
  PyStr.count_char c (PyStr.lstrip s) <= PyStr.count_char c s.
Proof.
  induction s as [|d r IH]; simpl; [lia|].
  destruct (PyStr.is_space d); simpl; lia.
Qed.

Lemma count_char_rstrip (c : ascii) (s : string) :
  PyStr.count_char c (PyStr.rstrip s) <= PyStr.count_char c s.
Proof.
  induction s as [|d r IH]; simpl; [lia|].
  destruct (PyStr.rstrip r); simpl in *.
  - destruct (PyStr.is_space d); simpl; lia.
  - lia.
Qed.

Lemma count_char_strip (c : ascii) (s : string) :
  PyStr.count_char c (PyStr.strip s) <= PyStr.count_char c s.
Proof.
  unfold PyStr.strip.
  pose proof (count_char_rstrip c (PyStr.lstrip s)).
  pose proof (count_char_lstrip c s). lia.
Qed.

(** X15: a progression or bass line given as a text is cut into one name
    more than it has commas; no name holds a comma, and no name begins or
    ends with white space (stripping it again changes nothing). *)
Theorem names_of_text (s : string) :
  length (names_of (Text s)) = S (PyStr.count_char "," s) /\
  Forall (fun name => PyStr.count_char "," name = 0 /\ PyStr.strip name = name)
         (names_of (Text s)).
Proof.
  cbn [names_of]. split.
  - rewrite length_map. apply split_length.
  - apply Forall_map.
    eapply Forall_impl; [|apply (split_pieces_clean "," s)].
    intros piece Hpiece. cbv beta in Hpiece. split.
    + pose proof (count_char_strip "," piece) as Hle.
      rewrite Hpiece in Hle. now apply Nat.le_0_r.
    + apply strip_idempotent.
Qed.

(** ** More on parsing *)

(** Takes a successful call of [parse_chord_string] apart: the text had no
    slash or one, and each test of the function went one way. *)
Ltac parse_cases H :=
  unfold parse_chord_string in H;
  match type of H with
  | context [PyStr.contains "/" ?s] =>
      destruct (PyStr.contains "/" s) eqn:Hslash
  end;
  [ match type of H with
    | context [PyStr.split "/" ?s] =>
        destruct (PyStr.split "/" s) as [|? [|? [|? ?]]] eqn:Hsplit
    end;
    unfold bind, ret, throw, print in H; cbv beta iota in H;
    try discriminate H
  | unfold bind, ret, print in H; cbv beta iota in H ];
  repeat match type of H with
         | context [if ?c then _ else _] => destruct c eqn:?
         | context [match dict_get ?d ?k with _ => _ end] =>
             destruct (dict_get d k) eqn:?
         end;
  cbn [app] in H; injection H as <- <-.

(** Where a sharp has a flat for its other name, the flat is what the parser
    keeps as the bass. *)
Lemma flat_preferred (b : string) :
  match
    match dict_get enharmonic b with
    | Some other =>
        if truthy (Some b) && PyStr.contains "#" b && PyStr.contains "b" other
        then Some other else Some b
    | None => Some b
    end
  with
  | Some kept => mem kept sharps = false
  | None => True
  end.
Proof.
  unfold enharmonic. cbn [dict_get].
  repeat match goal with
         | |- context [String.eqb b ?k] =>
             destruct (String.eqb_spec b k);
             [subst b; vm_compute; reflexivity|]
         end.
  apply mem_not_In. simpl. intuition congruence.
Qed.

Lemma enharmonic_values_stripped (k v : string) :
  dict_get enharmonic k = Some v -> PyStr.strip v = v.
Proof.
  unfold enharmonic. cbn [dict_get].
  repeat match goal with
         | |- context [String.eqb k ?key] =>
             destruct (String.eqb k key);
             [intros [= <-]; vm_compute; reflexivity|]
         end.
  discriminate.
Qed.

(** X16: a descriptor returned by [parse_chord_string] is one of seven
    kinds: major, minor or diminished without a seventh, major with "7" or
    "maj7", minor with "m7", diminished with "dim7".  It is never minor and
    diminished at once. *)
Theorem parse_chord_kinds (chord_string : string) (d : Descriptor)
  (out : list Diag) :
  parse_chord_string chord_string = (Ok d, out) ->
  In (is_minor d, is_dim d, seventh d)
     [(false, false, None); (false, false, Some "7");
      (false, false, Some "maj7"); (true, false, None);
      (true, false, Some "m7"); (false, true, None);
      (false, true, Some "dim7")].
Proof.
  intros H. parse_cases H; cbn [is_minor is_dim seventh In]; auto 10.
Qed.

Lemma parse_chord_kinds_witness :
  In (is_minor (mkDescriptor "D" true false (Some "m7") (Some "F")),
      is_dim (mkDescriptor "D" true false (Some "m7") (Some "F")),
      seventh (mkDescriptor "D" true false (Some "m7") (Some "F")))
     [(false, false, None); (false, false, Some "7");
      (false, false, Some "maj7"); (true, false, None);
      (true, false, Some "m7"); (false, true, None);
      (false, true, Some "dim7")].
Proof.
  apply (parse_chord_kinds "Dm7/F" _
           [Parsed "Dm7" "D" true false (Some "m7") (Some "F")]).
  vm_compute. reflexivity.
Defined.

(** X17: a descriptor has a bass exactly when the text has a slash; its
    bass is never one of the sharps C#, D#, F#, G#, A#, for which the flat
    is kept instead; and neither its root nor its bass begins or ends with
    white space. *)
Theorem parse_chord_bass (chord_string : string) (d : Descriptor)
  (out : list Diag) :
  parse_chord_string chord_string = (Ok d, out) ->
  (bass d = None <-> PyStr.contains "/" chord_string = false) /\
  PyStr.strip (root d) = root d /\
  match bass d with
  | Some b => mem b sharps = false /\ PyStr.strip b = b
  | None => True
  end.
Proof.
  intros H. parse_cases H; cbn [bass root];
    (split; [split; congruence|]);
    (split; [apply strip_idempotent|]);
    try exact I;
    match goal with
    | |- mem (PyStr.strip ?x) sharps = false /\ _ =>
        pose proof (flat_preferred (PyStr.strip x)) as Hflat
    | Hd : dict_get enharmonic (PyStr.strip ?x) = Some ?o |- mem ?o sharps = false /\ _ =>
        pose proof (flat_preferred (PyStr.strip x)) as Hflat
    end;
    repeat match goal with
           | Hd : dict_get enharmonic _ = _ |- _ => rewrite Hd in Hflat
           | Hc : (_ && _ && _) = _ |- _ => rewrite Hc in Hflat
           end;
    (split; [exact Hflat|]);
    first [ apply strip_idempotent
          | match goal with
            | Hd : dict_get enharmonic _ = Some ?o |- PyStr.strip ?o = ?o =>
                exact (enharmonic_values_stripped _ _ Hd)
            end ].
Qed.

Lemma parse_chord_bass_witness :
  let d := mkDescriptor "F#" true false None (Some "Db") in
  (bass d = None <-> PyStr.contains "/" "F#m/C#" = false) /\
  PyStr.strip (root d) = root d /\
  match bass d with
  | Some b => mem b sharps = false /\ PyStr.strip b = b
  | None => True
  end.
Proof.
  apply (parse_chord_bass "F#m/C#" (mkDescriptor "F#" true false None (Some "Db"))
           [Parsed "F#m" "F#" true false None (Some "Db")]).
  vm_compute. reflexivity.
Defined.

(** ** What is built *)

(** A bind that returned had both its parts return. *)
Lemma bind_Ok_inv {A B : Type} (m : M A) (f : A -> M B) (b : B) (out : list Diag) :
  bind m f = (Ok b, out) ->
  exists a o1 o2, m = (Ok a, o1) /\ f a = (Ok b, o2) /\ out = o1 ++ o2.
Proof.
  unfold bind. destruct m as [[a | e |] o1]; try discriminate.
  destruct (f a) as [r o2] eqn:Hf. intros [= -> <-].
  now exists a, o1, o2.
Qed.

Lemma try_except_Some_inv {A : Type} (m : M (option A))
  (handler : exn -> M (option A)) (b : A) (out : list Diag) :
  (forall e, result (handler e) = Ok None) ->
  try_except m handler = (Ok (Some b), out) ->
  m = (Ok (Some b), out).
Proof.
  unfold try_except. intros Hh. destruct m as [[a | e |] o]; try discriminate.
  - now intros [= -> ->].
  - specialize (Hh e). destruct (handler e) as [r o']. simpl in Hh. subst r.
    discriminate.
Qed.

Lemma find_note_known (note : string) (i : Z) :
  find_note note notes 0 = Some i -> mem note spellings = true.
Proof.
  intros H. pose proof (get_note_index_cases note) as Hk.
  destruct (mem note spellings); [reflexivity|].
  unfold get_note_index in Hk. rewrite H in Hk. discriminate Hk.
Qed.

Lemma known_find_note (note : string) :
  mem note spellings = true -> exists i, find_note note notes 0 = Some i.
Proof.
  intros H. pose proof (get_note_index_cases note) as Hk. rewrite H in Hk.
  destruct Hk as (i & Hi & _). exists i. unfold get_note_index in Hi.
  destruct (find_note note notes 0); [now injection Hi as -> | discriminate Hi].
Qed.

Lemma chord_table_known (k : string) (triad : list string) :
  dict_get chord k = Some triad ->
  length triad = 3 /\ Forall (fun n => mem n spellings = true) triad.
Proof.
  unfold chord. cbn [dict_get].
  repeat match goal with
         | |- context [String.eqb k ?key] =>
             destruct (String.eqb k key);
             [intros [= <-]; split; [reflexivity | repeat constructor]|]
         end.
  discriminate.
Qed.

Lemma make_minor_chord_known (a b c : string) :
  Forall (fun n => mem n spellings = true) [a; b; c] ->
  exists third,
    make_minor_chord [a; b; c] = (Ok [a; third; c], []) /\
    Forall (fun n => mem n spellings = true) [a; third; c].
Proof.
  intros Hknown. inversion Hknown as [|? ? Ha Hrest]; subst.
  inversion Hrest as [|? ? Hb Hrest']; subst.
  destruct (known_find_note b Hb) as (j & Hj).
  destruct (lower_note_index b j Hj) as (third & Heq & Hidx & _).
  exists third. split; [now apply make_minor_chord_eq|].
  constructor; [assumption|]. constructor; [|assumption].
  now apply (find_note_known third _ Hidx).
Qed.

Lemma make_diminished_chord_known (a b c : string) :
  Forall (fun n => mem n spellings = true) [a; b; c] ->
  exists third fifth,
    make_diminished_chord [a; b; c] = (Ok [a; third; fifth], []) /\
    Forall (fun n => mem n spellings = true) [a; third; fifth].
Proof.
  intros Hknown. inversion Hknown as [|? ? Ha Hrest]; subst.
  inversion Hrest as [|? ? Hb Hrest']; subst.
  inversion Hrest' as [|? ? Hc _]; subst.
  destruct (known_find_note b Hb) as (j & Hj).
  destruct (known_find_note c Hc) as (k & Hk).
  destruct (lower_note_index b j Hj) as (third & Hthird & Hidx & _).
  destruct (lower_note_index c k Hk) as (fifth & Hfifth & Hidx' & _).
  exists third, fifth. split.
  - now rewrite (make_diminished_chord_eq a b c [] third fifth [] []).
  - repeat constructor; [assumption | |].
    + now apply (find_note_known third _ Hidx).
    + now apply (find_note_known fifth _ Hidx').
Qed.

Lemma make_seventh_chord_known (first : string) (rest : list string)
  (chord_type : string) :
  Forall (fun n => mem n spellings = true) (first :: rest) ->
  exists sevenths out,
    make_seventh_chord (first :: rest) chord_type = (Ok sevenths, out) /\
    (sevenths = first :: rest \/
     exists added, sevenths = (first :: rest) ++ [added]) /\
    Forall (fun n => mem n spellings = true) sevenths.
Proof.
  intros Hknown. inversion Hknown as [|? ? Hfirst Hrest]; subst.
  destruct (known_find_note first Hfirst) as (i & Hi).
  unfold make_seventh_chord.
  change (py_index (first :: rest) 0) with (@ret string first).
  unfold bind at 1. unfold ret at 1.
  destruct (dict_get seventh_intervals chord_type) as [[|k]|].
  - eexists. eexists. split; [reflexivity|]. split; [now left | assumption].
  - destruct (walk_up_index (S k) first i Hi) as (reached & Hwalk & Hidx).
    rewrite Hwalk. unfold bind, ret, try_except. cbv beta iota. cbn [app].
    eexists. eexists. split; [reflexivity|].
    split; [right; eexists; reflexivity|].
    constructor; [assumption|].
    apply Forall_app. split; [assumption|]. constructor; [|constructor].
    destruct (_ && _ && _); [|now apply (find_note_known reached _ Hidx)].
    destruct (dict_get accidental_map reached) as [flat|] eqn:Hflat;
      [|now apply (find_note_known reached _ Hidx)].
    apply (find_note_known flat ((i + Z.of_nat (S k)) mod 12)).
    now rewrite (accidental_map_same_index _ _ Hflat).
  - eexists. eexists. split; [reflexivity|]. split; [now left | assumption].
Qed.

Lemma inversion_by_bass_note_Permutation (chord_notes : list string)
  (bass_note : string) :
  exists inverted out,
    inversion_by_bass_note chord_notes bass_note = (Ok inverted, out) /\
    Permutation chord_notes inverted.
Proof.
  destruct (inversion_trace_cases (length chord_notes) chord_notes bass_note)
    as [(_ & Heq) | [(_ & _ & _ & Heq) | (_ & target & k & rest & _ & _ & Heq & _ & Hrot)]];
    [lia | | |];
    rewrite (inversion_by_bass_note_trace _ _ _ _ Heq); simpl.
  - eexists. eexists. split; [reflexivity | apply Permutation_refl].
  - eexists. eexists. split; [reflexivity | apply Permutation_refl].
  - eexists. eexists. split; [reflexivity|].
    rewrite Hrot. apply rotate_left_Permutation.
Qed.

(** X18: a chord that [get_chord_from_string] returns has three or four
    notes, and each of them is a spelling of the chromatic table. *)
Theorem built_chord_shape (chord_string : string) (built : list string)
  (out : list Diag) :
  get_chord_from_string chord_string = (Ok (Some built), out) ->
  (length built = 3 \/ length built = 4) /\
  Forall (fun n => mem n spellings = true) built.
Proof.
  intros H. unfold get_chord_from_string in H.
  apply try_except_Some_inv in H; [|reflexivity].
  apply bind_Ok_inv in H. destruct H as (d & o1 & o2 & _ & H & _).
  destruct d as [root0 minor0 dim0 seventh0 bass0].
  apply bind_Ok_inv in H. destruct H as (found & o3 & o4 & _ & H & _).
  destruct found as [root1|]; [|discriminate H].
  apply bind_Ok_inv in H. destruct H as (triad & o5 & o6 & Htriad & H & _).
  destruct (dict_get chord root1) as [t|] eqn:Hchord; [|discriminate Htriad].
  injection Htriad as -> _.
  destruct (chord_table_known _ _ Hchord) as (Hlen & Hknown).
  destruct triad as [|a [|b [|c [|? ?]]]]; try discriminate Hlen.
  apply bind_Ok_inv in H. destruct H as (_ & _ & o7 & _ & H & _).
  apply bind_Ok_inv in H. destruct H as (quality & o8 & o9 & Hquality & H & _).
  assert (Hq : exists a' b' c', quality = [a'; b'; c'] /\
                 Forall (fun n => mem n spellings = true) quality).
  { destruct dim0; [|destruct minor0].
    - destruct (make_diminished_chord_known a b c Hknown) as (t3 & t5 & Heq & Hk).
      rewrite Heq in Hquality. unfold bind, print, ret in Hquality.
      injection Hquality as <- _. eauto.
    - destruct (make_minor_chord_known a b c Hknown) as (t3 & Heq & Hk).
      rewrite Heq in Hquality. unfold bind, print, ret in Hquality.
      injection Hquality as <- _. eauto.
    - injection Hquality as <- _. eauto. }
  destruct Hq as (a' & b' & c' & -> & Hqk).
  apply bind_Ok_inv in H. destruct H as (sevenths & o10 & o11 & Hseventh & H & _).
  assert (Hs : (length sevenths = 3 \/ length sevenths = 4) /\
               Forall (fun n => mem n spellings = true) sevenths).
  { destruct seventh0 as [kind|]; [|injection Hseventh as <- _; now split; [left|]].
    destruct (truthy (Some kind)); [|injection Hseventh as <- _; now split; [left|]].
    destruct (make_seventh_chord_known a' [b'; c'] kind Hqk)
      as (s & os & Heq & Hshape & Hk).
    rewrite Heq in Hseventh. unfold bind, print, ret in Hseventh.
    injection Hseventh as <- _. split; [|assumption].
    destruct Hshape as [-> | (added & ->)]; [now left | now right]. }
  destruct Hs as (Hslen & Hsk).
  apply bind_Ok_inv in H. destruct H as (inverted & o12 & o13 & Hinv & H & _).
  assert (Hp : Permutation sevenths inverted).
  { destruct bass0 as [b0|]; [|injection Hinv as <- _; apply Permutation_refl].
    destruct (truthy (Some b0)); [|injection Hinv as <- _; apply Permutation_refl].
    destruct (inversion_by_bass_note_Permutation sevenths b0)
      as (r & orr & Heq & Hperm).
    rewrite Heq in Hinv. unfold bind, print, ret in Hinv.
    now injection Hinv as <- _. }
  unfold bind, print, ret in H. injection H as <- _.
  split.
  - rewrite <- (Permutation_length Hp). assumption.
  - eapply Permutation_Forall; eassumption.
Qed.

Lemma built_chord_shape_witness :
  (length ["F"; "A"; "C"; "D"] = 3 \/ length ["F"; "A"; "C"; "D"] = 4) /\
  Forall (fun n => mem n spellings = true) ["F"; "A"; "C"; "D"].
Proof.
  apply (built_chord_shape "Dm7/F" ["F"; "A"; "C"; "D"]
           (output (get_chord_from_string "Dm7/F"))).
  vm_compute. reflexivity.
Defined.

(** X19: [get_chord_from_string] returns for every text, never raising and
    never hanging; when it returns [None] it has printed that the chord
    cannot be found or the problem that was caught. *)
Theorem no_chord_is_reported (chord_string : string) :
  exists built out,
    get_chord_from_string chord_string = (Ok built, out) /\
    (built = None ->
     In (CantFind chord_string) out \/
     exists e, In (ProblemWithChord chord_string e) out).
Proof.
  destruct (get_chord_from_string_returns chord_string) as (built & out & Heq).
  exists built, out. split; [assumption|]. intros ->.
  unfold get_chord_from_string, try_except in Heq.
  match type of Heq with
  | context [bind ?m ?f] => destruct (bind m f) as [[r | e |] o] eqn:Hm
  end; [| |discriminate Heq].
  - injection Heq as -> ->. left.
    apply bind_Ok_inv in Hm. destruct Hm as (d & o1 & o2 & _ & H & ->).
    destruct d as [root0 minor0 dim0 seventh0 bass0].
    apply bind_Ok_inv in H. destruct H as (found & o3 & o4 & Hfound & H & ->).
    apply in_or_app. right. apply in_or_app.
    destruct found as [root1|].
    + exfalso.
      repeat (apply bind_Ok_inv in H;
              destruct H as (? & ? & ? & _ & H & _)).
      discriminate H.
    + left.
      destruct (negb (dict_mem chord root0)); [|discriminate Hfound].
      destruct (dict_get enharmonic root0) as [other|];
        [destruct (dict_mem chord other); [discriminate Hfound|]|];
        injection Hfound as <-; simpl; auto.
  - right. exists e. simpl in Heq. injection Heq as <-.
    apply in_or_app. right. simpl. auto.
Qed.

(** X20: every entry of the chord table is a major triad on its key: three
    notes, the key first, then the notes four and seven semitones above
    it. *)
Theorem chord_table_major_triads (k : string) (triad : list string) :
  dict_get chord k = Some triad ->
  exists i third fifth,
    triad = [k; third; fifth] /\
    result (get_note_index k) = Ok i /\
    result (get_note_index third) = Ok ((i + 4) mod 12)%Z /\
    result (get_note_index fifth) = Ok ((i + 7) mod 12)%Z.
Proof.
  unfold chord. cbn [dict_get].
  repeat match goal with
         | |- context [String.eqb k ?key] =>
             destruct (String.eqb_spec k key);
             [subst k; intros [= <-]; eexists; eexists; eexists;
              split; [reflexivity|]; vm_compute; repeat split|]
         end.
  discriminate.
Qed.

Lemma chord_table_major_triads_witness :
  exists i third fifth,
    ["G#"; "C"; "D#"] = ["G#"; third; fifth] /\
    result (get_note_index "G#") = Ok i /\
    result (get_note_index third) = Ok ((i + 4) mod 12)%Z /\
    result (get_note_index fifth) = Ok ((i + 7) mod 12)%Z.
Proof.
  apply (chord_table_major_triads "G#" ["G#"; "C"; "D#"]). reflexivity.
Defined.

(** Builds the chord of the goal and compares it with the intervals. *)
Ltac build_and_compare :=
  match goal with
  | |- exists i built,
        result (get_note_index ?k) = _ /\
        result (get_chord_from_string ?s) = _ /\ _ =>
      let r := eval vm_compute in (result (get_chord_from_string s)) in
      let j := eval vm_compute in (result (get_note_index k)) in
      match r with
      | Ok (Some ?b) =>
          match j with
          | Ok ?i =>
              exists i, b;
              repeat (split; [vm_compute; reflexivity|]);
              vm_compute; reflexivity
          end
      end
  end.

(** X21: for each of the seventeen roots of the chord table and each of the
    seven kinds of chord, the root followed by the suffix of the kind is
    built into a chord that starts on the root and whose notes lie at the
    semitones of the kind above it: 0 4 7 for the major triad, 0 3 7 for
    "m", 0 3 6 for "dim", with 10, 11, 10 and 9 added for "7", "maj7", "m7"
    and "dim7". *)
Theorem chords_of_every_root (k suffix : string) (intervals : list Z) :
  dict_mem chord k = true ->
  In (suffix, intervals) chord_kinds ->
  exists i built,
    result (get_note_index k) = Ok i /\
    result (get_chord_from_string (k ++ suffix)) = Ok (Some built) /\
    hd_error built = Some k /\
    map (fun n => result (get_note_index n)) built
    = map (fun semitones => Ok ((i + semitones) mod 12)%Z) intervals.
Proof.
  unfold dict_mem, chord. cbn [dict_get].
  repeat match goal with
         | |- context [String.eqb k ?key] =>
             destruct (String.eqb_spec k key);
             [subst k; intros _ Hkind; cbn [chord_kinds In] in Hkind;
              repeat (destruct Hkind as [[= <- <-] | Hkind];
                      [build_and_compare|]);
              contradiction|]
         end.
  discriminate.
Qed.

Lemma chords_of_every_root_witness :
  exists i built,
    result (get_note_index "Bb") = Ok i /\
    result (get_chord_from_string ("Bb" ++ "dim7")) = Ok (Some built) /\
    hd_error built = Some "Bb" /\
    map (fun n => result (get_note_index n)) built
    = map (fun semitones => Ok ((i + semitones) mod 12)%Z) [0; 3; 6; 9]%Z.
Proof.
  apply (chords_of_every_root "Bb" "dim7" [0; 3; 6; 9]%Z).
  - reflexivity.
  - simpl. do 6 right. left. reflexivity.
Defined.

(** ** The two spelling tables *)

(** X22: both spelling tables pair their names two by two: the name found
    for a key has the key as its own entry.  Every pair of [accidental_map]
    is a pair of [enharmonic] too, and its two names sit at the same index
    of the chromatic table. *)
Theorem spelling_tables_involutive (k v : string) :
  (dict_get enharmonic k = Some v -> dict_get enharmonic v = Some k) /\
  (dict_get accidental_map k = Some v ->
   dict_get accidental_map v = Some k /\
   dict_get enharmonic k = Some v /\
   exists i, result (get_note_index k) = Ok i /\
             result (get_note_index v) = Ok i).
Proof.
  split.
  - unfold enharmonic at 1. cbn [dict_get].
    repeat match goal with
           | |- context [String.eqb k ?key] =>
               destruct (String.eqb_spec k key);
               [subst k; intros [= <-]; vm_compute; reflexivity|]
           end.
    discriminate.
  - unfold accidental_map at 1. cbn [dict_get].
    repeat match goal with
           | |- context [String.eqb k ?key] =>
               destruct (String.eqb_spec k key);
               [subst k; intros [= <-];
                split; [vm_compute; reflexivity|];
                split; [vm_compute; reflexivity|];
                eexists; split; vm_compute; reflexivity|]
           end.
    discriminate.
Qed.

(** ** The objects handed to the library *)

(** The name a note of a chord is given: never one of the five sharps, and
    at the index of the note. *)
Lemma chord_note_name (note : string) :
  let name :=
    match dict_get accidental_map note with
    | Some other => if PyStr.contains "b" other then other else note
    | None => note
    end in
  mem name sharps = false /\ find_note name notes 0 = find_note note notes 0.
Proof.
  unfold accidental_map. cbn [dict_get].
  repeat match goal with
         | |- context [String.eqb note ?k] =>
             destruct (String.eqb_spec note k);
             [subst note; split; vm_compute; reflexivity|]
         end.
  cbv zeta. split; [|reflexivity].
  apply mem_not_In. simpl. intuition congruence.
Qed.

(** The name a bass note is given. *)
Lemma bass_note_name (note : string) :
  let name :=
    if PyStr.contains "#" note then
      match dict_get accidental_map note with
      | Some other => other
      | None => note
      end
    else note in
  mem name sharps = false /\ find_note name notes 0 = find_note note notes 0.
Proof.
  unfold accidental_map. cbn [dict_get].
  repeat match goal with
         | |- context [String.eqb note ?k] =>
             destruct (String.eqb_spec note k);
             [subst note; split; vm_compute; reflexivity|]
         end.
  cbv zeta. destruct (PyStr.contains "#" note); (split; [|reflexivity]);
    apply mem_not_In; simpl; intuition congruence.
Qed.

Section Objects.

Context {D Pitch : Type}.
Variable Note : string -> res Pitch.
Variable os : os_env D Pitch.
Variables (octave : Z) (duration : D).

(** X23: [create_music21_chord] gives no chord for [None] and for the empty
    list.  Otherwise it prints nothing and asks the library to read each
    note in order, as one text made of the name, spelled with the flat
    where the name is one of the sharps C#, D#, F#, G#, A# and at the same
    pitch class, and of the octave in decimal; it returns the chord of the
    pitches read, each with the duration, and when the library raises on a
    text the exception goes to the caller. *)
Theorem create_music21_chord_notes (chord_notes : option (list string)) :
  match chord_notes with
  | None | Some [] =>
      create_music21_chord Note chord_notes octave duration = (Ok None, [])
  | Some names =>
      output (create_music21_chord Note chord_notes octave duration) = [] /\
      match result (create_music21_chord Note chord_notes octave duration) with
      | Ok (Some chord_obj) =>
          reads_as Note duration (map (chord_note_text octave) names) chord_obj
      | Ok None => False
      | Raise e =>
          exists note, In note names /\
                       Note (chord_note_text octave note) = Raise e
      | Diverge =>
          exists note, In note names /\
                       Note (chord_note_text octave note) = Diverge
      end /\
      Forall (fun name =>
                exists spelled,
                  chord_note_text octave name
                  = (spelled ++ str_of_int octave)%string /\
                  mem spelled sharps = false /\
                  find_note spelled notes 0 = find_note name notes 0)
             names
  end.
Proof.
  destruct chord_notes as [[|first others]|]; try reflexivity.
  destruct (create_music21_chord_spec Note octave duration first others)
    as (Hout & Hspec).
  split; [assumption|]. split.
  - destruct (result (create_music21_chord Note (Some (first :: others))
                                           octave duration))
      as [[chord_obj|] | e |]; try assumption.
    now destruct Hspec.
  - apply Forall_forall. intros name _. eexists. split; [reflexivity|].
    apply (chord_note_name name).
Qed.

(** X24: [create_bass_line] prints nothing and asks the library to read each
    name of the bass line in order, as one text made of the name, spelled
    with the flat where it is one of the sharps C#, D#, F#, G#, A# and at
    the same pitch class, and of the octave in decimal; it returns one note
    for each name, in order, with the duration, and when the library raises
    on a text the exception goes to the caller. *)
Theorem create_bass_line_notes (bass_progression : names_arg) :
  output (create_bass_line Note bass_progression octave duration) = [] /\
  match result (create_bass_line Note bass_progression octave duration) with
  | Ok stream =>
      Forall2 (fun name e => reads_as Note duration [bass_note_text octave name] e
                             /\ exists n, e = NoteOf n)
              (names_of bass_progression) stream
  | Raise e =>
      exists name, In name (names_of bass_progression) /\
                   Note (bass_note_text octave name) = Raise e
  | Diverge =>
      exists name, In name (names_of bass_progression) /\
                   Note (bass_note_text octave name) = Diverge
  end /\
  Forall (fun name =>
            exists spelled,
              bass_note_text octave name = (spelled ++ str_of_int octave)%string /\
              mem spelled sharps = false /\
              find_note spelled notes 0 = find_note name notes 0)
         (names_of bass_progression).
Proof.
  unfold create_bass_line.
  destruct (append_notes_spec Note octave duration
              (names_of bass_progression) []) as (Hout & Hspec).
  split; [assumption|]. split.
  - destruct (result (append_notes Note (names_of bass_progression)
                                   octave duration []))
      as [stream | e |]; try assumption.
    destruct Hspec as (pitches & -> & Hreads). cbn [app].
    clear Hout. revert pitches Hreads.
    induction (names_of bass_progression) as [|name rest IH];
      intros pitches Hreads;
      inversion Hreads as [|text pitch texts pitches' Hnote Hrest]; subst;
      constructor.
    + split; [|eauto]. split; [|reflexivity]. now repeat constructor.
    + now apply IH.
  - apply Forall_forall. intros name _. eexists. split; [reflexivity|].
    apply (bass_note_name name).
Qed.

Lemma write_or_rename_cases (what : written D Pitch) (filepath : string)
  (r : export_result D Pitch) :
  result (write_or_rename os what filepath) = Ok r ->
  (r = Saved what filepath /\ write_midi os what filepath = Ok tt) \/
  (r = SavedInstead what
         (os_path_join os (os_path_dirname os filepath)
                       (get_unique_filename os filepath)) /\
   write_midi os what filepath = Raise PermissionError /\
   write_midi os what
              (os_path_join os (os_path_dirname os filepath)
                            (get_unique_filename os filepath)) = Ok tt).
Proof.
  unfold write_or_rename, try_except_PermissionError, quiet, bind, ret.
  destruct (write_midi os what filepath) as [[] | [] |]; cbn;
    try discriminate.
  - intros [= <-]. now left.
  - destruct (write_midi os what _) as [[] | e |] eqn:Hagain; cbn;
      try discriminate.
    intros [= <-]. right. now repeat split.
Qed.

Lemma export_without_bass_result (chord_progression : names_arg)
  (filename : string) (bass_progression : option names_arg)
  (chord_octave bass_octave : Z) :
  given bass_progression = false ->
  result (export_to_midi Note os chord_progression filename bass_progression
                         chord_octave bass_octave duration)
  = match result (get_output_path os filename) with
    | Ok filepath =>
        match result (create_chord_progression Note chord_progression
                                               chord_octave duration) with
        | Ok chords => result (write_or_rename os (Chords chords) filepath)
        | Raise e => Raise e
        | Diverge => Diverge
        end
    | Raise e => Raise e
    | Diverge => Diverge
    end.
Proof.
  intros Hgiven. unfold export_to_midi. rewrite result_bind.
  destruct (result (get_output_path os filename)) as [filepath | e |];
    [|reflexivity|reflexivity].
  rewrite Hgiven.
  destruct bass_progression; rewrite result_bind; reflexivity.
Qed.

(** X25: with no bass line, that is [None], the empty text or the empty
    list, [export_to_midi] never returns the length warning: it makes the
    path and the chords, and writes the chords alone; when the path and the
    chords are made and the file is written, it tells that the chords were
    saved to the path. *)
Theorem export_without_bass (chord_progression : names_arg) (filename : string)
  (bass_progression : option names_arg) (chord_octave bass_octave : Z) :
  given bass_progression = false ->
  is_warning_result
    (result (export_to_midi Note os chord_progression filename bass_progression
                            chord_octave bass_octave duration)) <> Some true /\
  (forall r,
     result (export_to_midi Note os chord_progression filename bass_progression
                            chord_octave bass_octave duration) = Ok r ->
     exists chords path,
       result (create_chord_progression Note chord_progression
                                        chord_octave duration) = Ok chords /\
       (r = Saved (Chords chords) path \/ r = SavedInstead (Chords chords) path)) /\
  (forall filepath chords,
     result (get_output_path os filename) = Ok filepath ->
     result (create_chord_progression Note chord_progression
                                      chord_octave duration) = Ok chords ->
     write_midi os (Chords chords) filepath = Ok tt ->
     result (export_to_midi Note os chord_progression filename bass_progression
                            chord_octave bass_octave duration)
     = Ok (Saved (Chords chords) filepath)).
Proof.
  intros Hgiven. rewrite (export_without_bass_result _ _ _ _ _ Hgiven).
  split; [|split].
  - destruct (result (get_output_path os filename)) as [filepath | e |];
      try discriminate.
    destruct (result (create_chord_progression Note chord_progression
                                               chord_octave duration))
      as [chords | e |]; try discriminate.
    apply write_or_rename_not_warning.
  - intros r.
    destruct (result (get_output_path os filename)) as [filepath | e |];
      try discriminate.
    destruct (result (create_chord_progression Note chord_progression
                                               chord_octave duration))
      as [chords | e |]; try discriminate.
    intros Hr. exists chords.
    destruct (write_or_rename_cases _ _ _ Hr) as [(-> & _) | (-> & _)]; eauto.
  - intros filepath chords -> -> Hwrite.
    unfold write_or_rename, try_except_PermissionError, quiet, bind, ret.
    now rewrite Hwrite.
Qed.

(** X26: what a result of [export_to_midi] tells.  "Saved" means that the
    path is the one [get_output_path] made and that the file was written
    there; "saved instead" that writing there raised [PermissionError] and
    the file was written beside it under [get_unique_filename]; the length
    warning that a bass line was given and that the numbers it carries, of
    the texts that build a chord and of the bass names, differ.  What was
    written is the chords alone when no bass line was given, and otherwise
    the chords as the piano part and the bass notes as the bass part, as
    many of the ones as of the others. *)
Theorem export_result_meaning (chord_progression : names_arg)
  (filename : string) (bass_progression : option names_arg)
  (chord_octave bass_octave : Z) (r : export_result D Pitch) :
  result (export_to_midi Note os chord_progression filename bass_progression
                         chord_octave bass_octave duration) = Ok r ->
  let well_formed (what : written D Pitch) :=
    match what with
    | Chords chords =>
        given bass_progression = false /\
        result (create_chord_progression Note chord_progression
                                         chord_octave duration) = Ok chords
    | Score chord_part bass_part =>
        part_instrument chord_part = Piano /\
        part_instrument bass_part = AcousticBass /\
        result (create_chord_progression Note chord_progression
                                         chord_octave duration)
        = Ok (part_elements chord_part) /\
        (exists bass_line,
           bass_progression = Some bass_line /\
           given bass_progression = true /\
           result (create_bass_line Note bass_line bass_octave duration)
           = Ok (part_elements bass_part)) /\
        length (part_elements chord_part) = length (part_elements bass_part)
    end in
  exists filepath,
    result (get_output_path os filename) = Ok filepath /\
    match r with
    | Saved what saved_to =>
        saved_to = filepath /\ write_midi os what filepath = Ok tt /\
        well_formed what
    | SavedInstead what new_path =>
        write_midi os what filepath = Raise PermissionError /\
        new_path = os_path_join os (os_path_dirname os filepath)
                                (get_unique_filename os filepath) /\
        write_midi os what new_path = Ok tt /\
        well_formed what
    | LengthWarning chords bass =>
        chords <> bass /\
        chords = length (filter builds (names_of chord_progression)) /\
        exists bass_line,
          bass_progression = Some bass_line /\
          given bass_progression = true /\
          bass = length (names_of bass_line)
    end.
Proof.
  intros Hr well_formed.
  destruct (given bass_progression) eqn:Hgiven.
  - destruct bass_progression as [bass_line|]; [|discriminate Hgiven].
    rewrite (export_with_bass_result _ _ _ _ _ _ _ _ _ _ Hgiven) in Hr.
    destruct (result (get_output_path os filename)) as [filepath | e |];
      try discriminate.
    exists filepath. split; [reflexivity|].
    destruct (result (create_chord_progression Note chord_progression
                                               chord_octave duration))
      as [chords | e |] eqn:Hchords; try discriminate.
    destruct (result (create_bass_line Note bass_line bass_octave duration))
      as [bass_notes | e |] eqn:Hbass; try discriminate.
    destruct (Nat.eqb (length chords) (length bass_notes)) eqn:Hcmp.
    + apply Nat.eqb_eq in Hcmp.
      assert (Hwf : well_formed (Score (mkPart Piano chords)
                                       (mkPart AcousticBass bass_notes))).
      { cbn. repeat split; try assumption. exists bass_line. now repeat split. }
      destruct (write_or_rename_cases _ _ _ Hr) as [(-> & Hw) | (-> & Hw & Hw')].
      * split; [reflexivity|]. split; [assumption | exact Hwf].
      * split; [assumption|]. split; [reflexivity|].
        split; [assumption | exact Hwf].
    + apply Nat.eqb_neq in Hcmp. injection Hr as <-.
      rewrite create_chord_progression_entries in Hchords.
      split; [assumption|]. split.
      * now apply (entries_length Note chord_octave duration).
      * exists bass_line. repeat split.
        now apply (create_bass_line_length Note bass_octave duration).
  - rewrite (export_without_bass_result _ _ _ _ _ Hgiven) in Hr.
    destruct (result (get_output_path os filename)) as [filepath | e |];
      try discriminate.
    exists filepath. split; [reflexivity|].
    destruct (result (create_chord_progression Note chord_progression
                                               chord_octave duration))
      as [chords | e |] eqn:Hchords; try discriminate.
    assert (Hwf : well_formed (Chords chords)) by (cbn; now split).
    destruct (write_or_rename_cases _ _ _ Hr) as [(-> & Hw) | (-> & Hw & Hw')].
    + split; [reflexivity|]. split; [assumption | exact Hwf].
    + split; [assumption|]. split; [reflexivity|].
      split; [assumption | exact Hwf].
Qed.

End Objects.

Lemma export_without_bass_witness :
  is_warning_result
    (result (export_to_midi reads_every_name (sample_os Z) (Text "C, G7")
                            "out.mid" (Some (Text "")) 4 2 1%Z)) <> Some true /\
  (forall r,
     result (export_to_midi reads_every_name (sample_os Z) (Text "C, G7")
                            "out.mid" (Some (Text "")) 4 2 1%Z) = Ok r ->
     exists chords path,
       result (create_chord_progression reads_every_name (Text "C, G7") 4 1%Z)
       = Ok chords /\
       (r = Saved (Chords chords) path \/ r = SavedInstead (Chords chords) path)) /\
  (forall filepath chords,
     result (get_output_path (sample_os Z) "out.mid") = Ok filepath ->
     result (create_chord_progression reads_every_name (Text "C, G7") 4 1%Z)
     = Ok chords ->
     write_midi (sample_os Z) (Chords chords) filepath = Ok tt ->
     result (export_to_midi reads_every_name (sample_os Z) (Text "C, G7")
                            "out.mid" (Some (Text "")) 4 2 1%Z)
     = Ok (Saved (Chords chords) filepath)).
Proof.
  apply (export_without_bass reads_every_name (sample_os Z) 1%Z
           (Text "C, G7") "out.mid" (Some (Text "")) 4 2).
  reflexivity.
Defined.

Lemma export_result_meaning_witness :
  let chords :=
    [ChordOf [mkNote "C4" 1%Z; mkNote "E4" 1%Z; mkNote "G4" 1%Z]] in
  exists filepath,
    result (get_output_path (busy_os Z) "out.mid") = Ok filepath /\
    write_midi (busy_os Z) (Chords chords) filepath = Raise PermissionError /\
    "/music/output/out_20240101_120000.mid"
    = os_path_join (busy_os Z) (os_path_dirname (busy_os Z) filepath)
                   (get_unique_filename (busy_os Z) filepath) /\
    write_midi (busy_os Z) (Chords chords)
               "/music/output/out_20240101_120000.mid" = Ok tt /\
    given None = false /\
    result (create_chord_progression reads_every_name (Text "C") 4 1%Z)
    = Ok chords.
Proof.
  apply (export_result_meaning reads_every_name (busy_os Z) 1%Z
           (Text "C") "out.mid" None 4 2
           (SavedInstead
              (Chords [ChordOf [mkNote "C4" 1%Z; mkNote "E4" 1%Z;
                                mkNote "G4" 1%Z]])
              "/music/output/out_20240101_120000.mid")).
  vm_compute. reflexivity.
Defined.
